(** * ESP32 firmware image: checksum reconstruction diagnostics

    A shallow embedding of [debug_reconstruction.py] and the properties of
    the image codec it exercises: where the checksum byte and the SHA-256
    trailer sit, how the segment records are walked, and how the one-byte
    XOR checksum is accumulated over the segment payloads. *)

From Stdlib Require Import ZArith List Lia Bool Permutation.
From coqutil Require Import Byte Word.LittleEndianList.
Import ListNotations.
Local Open Scope Z_scope.

(** ** Python primitives used by the script *)

Module Py.

(** A [bytes] object, as returned by [f.read()] on a file opened in
    binary mode. *)
Definition bytes : Type := list byte.

Definition len (b : bytes) : Z := Z.of_nat (length b).

(** [b[i]]: a negative index counts from the end; an index outside
    [-len(b) .. len(b)-1] raises IndexError (here [None]). *)
Definition getitem (b : bytes) (i : Z) : option byte :=
  if i <? 0
  then if 0 <=? len b + i then nth_error b (Z.to_nat (len b + i)) else None
  else nth_error b (Z.to_nat i).

(** A slice bound is clamped into [0 .. len(b)]; slicing never raises. *)
Definition slice_bound (b : bytes) (i : Z) : Z :=
  if i <? 0 then Z.max 0 (len b + i) else Z.min i (len b).

(** [b[lo:hi]] *)
Definition slice (b : bytes) (lo hi : Z) : bytes :=
  let l := slice_bound b lo in
  let h := slice_bound b hi in
  firstn (Z.to_nat (h - l)) (skipn (Z.to_nat l) b).

(** [int.from_bytes(bs, 'little')]; the empty string decodes to 0. *)
Definition int_from_bytes_little (bs : bytes) : Z := le_combine bs.

End Py.

Import Py.

(** ** Output and control flow

    Every [print] of the script is one constructor of [line], carrying the
    values that the f-string interpolates (the formatting itself, decimal or
    two-digit hexadecimal, is injective on these values and is left out). *)

Inductive line : Type :=
| PBlank
| POriginalSize (n : Z)                      (* line 15 *)
| PModifiedSize (n : Z)                      (* line 16 *)
| PImageData (imageData_end : Z)             (* line 22 *)
| PChecksumPosition (p : Z)                  (* line 23 *)
| POriginalByte (b : byte)                   (* line 24 *)
| PModifiedByte (b : byte)                   (* line 25 *)
| PDataBeforeChecksum (e : Z)                (* line 31 *)
| PAfterChecksumBanner                       (* line 36 *)
| PRebuiltLength (n : Z)                     (* line 37 *)
| PChecksumWouldBeAt (p : Z)                 (* line 38 *)
| PChecksumInModified (p : Z) (b : byte)     (* line 39 *)
| PAfterSHABanner                            (* line 44 *)
| PFinalLength (n : Z)                       (* line 45 *)
| PChecksumFinalPosition (p : Z)             (* line 46 *)
| PMinus33Position (p : Z)                   (* line 47 *)
| PMinus33Byte (p : Z) (b : byte)            (* line 48 *)
| PPositionsBanner                           (* line 53 *)
| PAtCalculated (p : Z) (b : byte)           (* line 54 *)
| PAtMinus33 (p : Z) (b : byte)              (* line 55 *)
| PAtLast (p : Z) (b : byte)                 (* line 56 *)
| PCalculatingBanner                         (* line 60 *)
| PErrorBadMagic                             (* line 65 *)
| PSegmentCount (n : Z)                      (* line 69 *)
| PSegment (i seg_load_addr seg_data_len : Z) (* line 79 *)
| PTotalDataBytes (n : Z)                    (* line 90 *)
| PExpectedChecksum (checksum : Z)           (* line 91 *)
| PSearchingBanner (checksum : Z)            (* line 95 *)
| PFound (i k : Z).                          (* line 99 *)

(** The exceptions the script can raise on file contents. *)
Inductive exn : Type := IndexError | UnboundLocalError.

(** How a block of statements ends: it falls through with a value, it
    executes [return], or it raises. *)
Inductive ctl (A : Type) : Type :=
| Next (a : A)
| Returned
| Raised (e : exn).
Arguments Next {A} a.
Arguments Returned {A}.
Arguments Raised {A} e.

(** A statement block: the lines printed so far and how it ended. *)
Definition M (A : Type) : Type := (list line * ctl A)%type.

Definition out {A} (m : M A) : list line := fst m.
Definition res {A} (m : M A) : ctl A := snd m.

Definition ret {A} (a : A) : M A := ([], Next a).

Definition bind {A B} (m : M A) (k : A -> M B) : M B :=
  match m with
  | (l, Next a) => let (l', r) := k a in (l ++ l', r)
  | (l, Returned) => (l, Returned)
  | (l, Raised e) => (l, Raised e)
  end.

Declare Scope py_scope.
Delimit Scope py_scope with py.
Notation "x <- m ;; k" := (bind m (fun x => k))
  (at level 61, m at next level, right associativity) : py_scope.
Notation "m ;; k" := (bind m (fun _ => k))
  (at level 61, right associativity) : py_scope.
Local Open Scope py_scope.

Definition print (l : line) : M unit := ([l], Next tt).
Definition raise {A} (e : exn) : M A := ([], Raised e).
Definition return_ {A} : M A := ([], Returned).

(** [b[i]] as an expression that may raise. *)
Definition index (b : bytes) (i : Z) : M byte :=
  match getitem b i with
  | Some x => ret x
  | None => raise IndexError
  end.

(** Reading a local variable that is only assigned on one branch. *)
Definition local {A} (v : option A) : M A :=
  match v with
  | Some a => ret a
  | None => raise UnboundLocalError
  end.

(** [for i in range(n): s = body(i, s)], started at index [i]. *)
Fixpoint for_loop {St} (n : nat) (i : Z) (body : Z -> St -> M St) (s : St) : M St :=
  match n with
  | O => ret s
  | S n' => s' <- body i s ;; for_loop n' (i + 1) body s'
  end.

Definition for_range {St} (n : Z) (body : Z -> St -> M St) (s : St) : M St :=
  for_loop (Z.to_nat n) 0 body s.

(** ** The script *)

(** Lines 15-57: where the checksum byte and the SHA-256 trailer would be. *)
Definition report_positions (original modified : bytes) : M unit :=
  print (POriginalSize (len original)) ;;
  print (PModifiedSize (len modified)) ;;
  print PBlank ;;
  imageData_end <-
    (if 33 <=? len original then
       let imageData_end := len original - 32 in
       print (PImageData imageData_end) ;;
       print (PChecksumPosition (imageData_end - 1)) ;;
       o <- index original (imageData_end - 1) ;;
       print (POriginalByte o) ;;
       m <- index modified (imageData_end - 1) ;;
       print (PModifiedByte m) ;;
       print PBlank ;;
       ret (Some imageData_end)
     else ret None) ;;
  imageData_end <- local imageData_end ;;
  let dataBeforeChecksum_end := imageData_end - 1 in
  print (PDataBeforeChecksum dataBeforeChecksum_end) ;;
  print PBlank ;;
  print PAfterChecksumBanner ;;
  print (PRebuiltLength (dataBeforeChecksum_end + 1)) ;;
  print (PChecksumWouldBeAt dataBeforeChecksum_end) ;;
  m <- index modified dataBeforeChecksum_end ;;
  print (PChecksumInModified dataBeforeChecksum_end m) ;;
  print PBlank ;;
  print PAfterSHABanner ;;
  print (PFinalLength (dataBeforeChecksum_end + 1 + 32)) ;;
  print (PChecksumFinalPosition dataBeforeChecksum_end) ;;
  print (PMinus33Position (len modified - 33)) ;;
  m <- index modified (len modified - 33) ;;
  print (PMinus33Byte (len modified - 33) m) ;;
  print PBlank ;;
  print PPositionsBanner ;;
  m <- index modified dataBeforeChecksum_end ;;
  print (PAtCalculated dataBeforeChecksum_end m) ;;
  m <- index modified (len modified - 33) ;;
  print (PAtMinus33 (len modified - 33) m) ;;
  m <- index modified (len modified - 1) ;;
  print (PAtLast (len modified - 1) m) ;;
  print PBlank.

(** The variables the segment loop updates. *)
Record walk : Type := mkWalk {
  offset : Z;
  checksum : Z;
  total_data_bytes : Z
}.

(** Line 85: [checksum ^= modified[offset + j]]. *)
Definition xor_data_byte (modified : bytes) (offset j checksum : Z) : M Z :=
  b <- index modified (offset + j) ;;
  ret (Z.lxor checksum (byte.unsigned b)).

(** Lines 76-88: one iteration of [for i in range(segment_count)]. *)
Definition segment_body (modified : bytes) (i : Z) (w : walk) : M walk :=
  let seg_load_addr :=
    int_from_bytes_little (slice modified (offset w) (offset w + 4)) in
  let seg_data_len :=
    int_from_bytes_little (slice modified (offset w + 4) (offset w + 8)) in
  print (PSegment i seg_load_addr seg_data_len) ;;
  let offset' := offset w + 8 in
  checksum' <- for_range seg_data_len (xor_data_byte modified offset') (checksum w) ;;
  ret {| offset := offset' + seg_data_len;
         checksum := checksum';
         total_data_bytes := total_data_bytes w + seg_data_len |}.

(** Lines 72-88: the walk over the segment records. *)
Definition walk_segments (modified : bytes) (segment_count : Z) : M walk :=
  for_range segment_count (segment_body modified)
    {| offset := 24; checksum := 0xEF; total_data_bytes := 0 |}.

(** Lines 96-99: one iteration of the search for the checksum value. *)
Definition search_body (modified : bytes) (checksum : Z) (i : Z) (_ : unit) : M unit :=
  m <- index modified i ;;
  if byte.unsigned m =? checksum then
    if len modified - 40 <=? i then print (PFound i (len modified - i))
    else ret tt
  else ret tt.

(** Lines 59-99: the expected checksum of the modified file. *)
Definition calculate_expected_checksum (modified : bytes) : M unit :=
  print PCalculatingBanner ;;
  magic <- index modified 0 ;;
  (if negb (byte.unsigned magic =? 0xE9) then
     print PErrorBadMagic ;; return_
   else ret tt) ;;
  segment_count <- index modified 1 ;;
  let segment_count := byte.unsigned segment_count in
  print (PSegmentCount segment_count) ;;
  w <- walk_segments modified segment_count ;;
  print (PTotalDataBytes (total_data_bytes w)) ;;
  print (PExpectedChecksum (checksum w)) ;;
  print PBlank ;;
  print (PSearchingBanner (checksum w)) ;;
  for_range (len modified) (search_body modified (checksum w)) tt.

(** [reconstruct_firmware], given the contents of the two files. *)
Definition reconstruct_firmware (original modified : bytes) : M unit :=
  report_positions original modified ;;
  calculate_expected_checksum modified.

(** What a run reported: the segment descriptors and the checksum. *)
Fixpoint descriptors (log : list line) : list (Z * Z) :=
  match log with
  | [] => []
  | PSegment _ a n :: log' => (a, n) :: descriptors log'
  | _ :: log' => descriptors log'
  end.

Fixpoint reported_checksum (log : list line) : option Z :=
  match log with
  | [] => None
  | PExpectedChecksum c :: _ => Some c
  | _ :: log' => reported_checksum log'
  end.

(** ** The image format, in the words of the specification *)

(** A segment record: [load_address], then [data_length] bytes of data. *)
Record Segment : Type := mkSegment {
  load_address : Z;
  data : bytes
}.

Definition data_length (s : Segment) : Z := len (data s).

(** Both header fields of a record fit in four bytes. *)
Definition segment_ok (s : Segment) : Prop :=
  0 <= load_address s < 2 ^ 32 /\ data_length s < 2 ^ 32.

(** 4-byte little-endian load address, 4-byte little-endian data length,
    then the data. *)
Definition encode_segment (s : Segment) : bytes :=
  le_split 4 (load_address s) ++ le_split 4 (data_length s) ++ data s.

Definition encode_segments (segs : list Segment) : bytes :=
  flat_map encode_segment segs.

(** Bytes taken by the records of [segs]: 8 + data_length each. *)
Definition records_size (segs : list Segment) : Z :=
  fold_right (fun s n => 8 + data_length s + n) 0 segs.

(** Magic, segment count, 6 opaque bytes, 16 opaque extension bytes. *)
Definition header (segment_count : Z) (opaque ext : bytes) : bytes :=
  Byte.xe9 :: byte.of_Z segment_count :: opaque ++ ext.

(** Header, segment records back to back from offset 24, then [rest]:
    whatever precedes the checksum byte, the checksum byte and the
    32-byte digest trailer. *)
Definition image (opaque ext : bytes) (segs : list Segment) (rest : bytes) : bytes :=
  header (Z.of_nat (length segs)) opaque ext ++ encode_segments segs ++ rest.


Definition trailer_start (buf : bytes) : Z := len buf - 32.

Inductive FormatError : Type := BadMagic | Truncated | TooShort.

(** Checksum Calculator: seed 0xEF; for every segment, for every data byte
    of it, [checksum ^= byte]. *)
Definition xor_fold (c : Z) (bs : bytes) : Z :=
  fold_left (fun c b => Z.lxor c (byte.unsigned b)) bs c.

Definition compute_checksum (segs : list Segment) : Z :=
  fold_left (fun c s => xor_fold c (data s)) segs 0xEF.

(** Segment Walker: for each of [n] segments read the two little-endian
    header fields at the cursor, then a slice of [data_length] bytes, and
    advance the cursor by [8 + data_length]; a read that would exceed the
    buffer fails with [Truncated], checked segment by segment. *)
Fixpoint spec_walk (buf : bytes) (n : nat) (cursor : Z) : FormatError + list Segment :=
  match n with
  | O => inr []
  | S n' =>
      if len buf <? cursor + 8 then inl Truncated else
      let load_address := le_combine (slice buf cursor (cursor + 4)) in
      let data_length := le_combine (slice buf (cursor + 4) (cursor + 8)) in
      if len buf <? cursor + 8 + data_length then inl Truncated else
      match spec_walk buf n' (cursor + 8 + data_length) with
      | inl e => inl e
      | inr segs =>
          inr ({| load_address := load_address;
                  data := slice buf (cursor + 8) (cursor + 8 + data_length) |} :: segs)
      end
  end.

(** The payloads of [n] records read one after the other from [cursor],
    with nothing said about the end of the buffer: the data length is
    decoded from the four bytes at [cursor + 4], the payload is the
    [data_length] bytes after the 8-byte header, and the next record starts
    at [cursor + 8 + data_length]. *)
Fixpoint declared_payloads (buf : bytes) (n : nat) (cursor : Z) : list bytes :=
  match n with
  | O => []
  | S n' =>
      let data_length := le_combine (slice buf (cursor + 4) (cursor + 8)) in
      slice buf (cursor + 8) (cursor + 8 + data_length) ::
      declared_payloads buf n' (cursor + 8 + data_length)
  end.

(** Whether the data of each of [n] records read from [cursor] is empty or
    ends inside the buffer: the condition under which line 85 never reads
    past the end. *)
Fixpoint declared_in_range (buf : bytes) (n : nat) (cursor : Z) : bool :=
  match n with
  | O => true
  | S n' =>
      let data_length := le_combine (slice buf (cursor + 4) (cursor + 8)) in
      ((data_length =? 0) || (cursor + 8 + data_length <=? len buf)) &&
      declared_in_range buf n' (cursor + 8 + data_length)
  end.

(** The lines the script prints for the records of [segs], from index [i]. *)
Fixpoint segment_lines (i : Z) (segs : list Segment) : list line :=
  match segs with
  | [] => []
  | s :: segs' => PSegment i (load_address s) (data_length s) :: segment_lines (i + 1) segs'
  end.

(** ** Derived quantities of a list of segments and of a log *)

(** Data bytes held by [segs]. *)
Definition payload_size (segs : list Segment) : Z :=
  fold_right (fun s n => data_length s + n) 0 segs.

(** The checksum fold continued from [c] over the data of [segs]. *)
Definition fold_segments (c : Z) (segs : list Segment) : Z :=
  fold_left (fun c s => xor_fold c (data s)) segs c.

(** The fold of one segment on its own, from 0. *)
Definition partial_checksum (s : Segment) : Z := xor_fold 0 (data s).


Definition is_found (x : line) : Prop :=
  match x with PFound _ _ => True | _ => False end.

(** The lines of [report_positions]: no descriptor, no checksum, and not
    the banner that opens the checksum calculation. *)
Definition is_position (x : line) : Prop :=
  match x with
  | PSegment _ _ _ | PExpectedChecksum _ | PCalculatingBanner => False
  | _ => True
  end.




(** ** Resealing *)

(** Modelled from the spec: the Header Parser of section 4.1 (the image
    parser of the repository is not among the sources). It fails with
    [BadMagic] when the first byte is not 0xE9 and with [Truncated] when
    the buffer is shorter than the 24 header bytes; it yields the segment
    count. *)
Definition parse_header (buf : bytes) : FormatError + Z :=
  match buf with
  | magic :: segment_count :: _ =>
      if negb (byte.unsigned magic =? 0xE9) then inl BadMagic
      else if len buf <? 24 then inl Truncated
      else inr (byte.unsigned segment_count)
  | [magic] => if negb (byte.unsigned magic =? 0xE9) then inl BadMagic else inl Truncated
  | [] => inl Truncated
  end.

(** Modelled from the spec: overwriting one byte of the working buffer
    (section 4.5, step 2). The spec does not say what happens when the
    position is outside the buffer; the buffer is then left as it is. *)
Definition write_byte (buf : bytes) (pos : Z) (v : byte) : bytes :=
  if (0 <=? pos) && (pos <? len buf)
  then firstn (Z.to_nat pos) buf ++ v :: skipn (Z.to_nat (pos + 1)) buf
  else buf.

(** Modelled from the spec: overwriting the bytes from [pos] on with [d]
    (section 4.5, step 3). *)
Definition write_bytes (buf : bytes) (pos : Z) (d : bytes) : bytes :=
  firstn (Z.to_nat pos) buf ++ d ++ skipn (Z.to_nat pos + length d) buf.

Section Reseal.

(** The external hash primitive. *)
Variable hash : bytes -> bytes.

(** Modelled from the spec: the Digest Calculator of section 4.4, the
    hash of the bytes [0, trailer_start) of the buffer it is given;
    [TooShort] when the buffer is shorter than the 32-byte trailer. *)
Definition digest (buf : bytes) : FormatError + bytes :=
  if len buf <? 32 then inl TooShort
  else inr (hash (slice buf 0 (trailer_start buf))).

(** Modelled from the spec: the Image Resealer of section 4.5 (the
    rebuilding code of the repository is not among the sources; the
    script only prints where its pieces would go). Header Parser, then
    Segment Walker and Checksum Calculator, the checksum byte written at
    [trailer_start - 1], then the Digest Calculator on the updated buffer
    and its 32 bytes written from [trailer_start] on. *)
Definition reseal (buf : bytes) : FormatError + bytes :=
  match parse_header buf with
  | inl e => inl e
  | inr segment_count =>
      match spec_walk buf (Z.to_nat segment_count) 24 with
      | inl e => inl e
      | inr segs =>
          let updated :=
            write_byte buf (trailer_start buf - 1) (byte.of_Z (compute_checksum segs)) in
          match digest updated with
          | inl e => inl e
          | inr d => inr (write_bytes updated (trailer_start buf) d)
          end
      end
  end.

End Reseal.

(** ** Scenarios of the specification *)

(** The segment of scenario A and the second segment of scenario B (its
    load address is not given by the specification). *)
Definition segment_A : Segment := {| load_address := 0; data := [Byte.x01; Byte.x02] |}.
Definition segment_B : Segment := {| load_address := 0x40080000; data := [Byte.xff] |}.

(** The SHA-256 of the first 35 bytes of scenario A below. *)
Definition scenario_A_trailer : bytes :=
  [Byte.xcf; Byte.xd8; Byte.xcd; Byte.x72; Byte.x30; Byte.x1f; Byte.x1d; Byte.xa8;
   Byte.x32; Byte.xc6; Byte.xe9; Byte.x42; Byte.x4e; Byte.x35; Byte.xb0; Byte.xd9;
   Byte.x16; Byte.xc0; Byte.xb5; Byte.x93; Byte.xf8; Byte.x05; Byte.xfa; Byte.x47;
   Byte.xc5; Byte.x29; Byte.xc0; Byte.x79; Byte.x57; Byte.x06; Byte.xbc; Byte.x42].

(** Scenario A of the specification (all opaque header bytes zero), with
    its checksum byte 0xEC and its digest: 67 bytes. *)
Definition scenario_A : bytes :=
  image (repeat Byte.x00 6) (repeat Byte.x00 16) [segment_A] (Byte.xec :: scenario_A_trailer).

(** ** Facts about indexing and slicing *)

Section PyFacts.

Implicit Types (b pre x post : bytes).

Lemma len_nonneg b : 0 <= len b.
Proof. unfold len. lia. Qed.

Lemma len_app b x : len (b ++ x) = len b + len x.
Proof. unfold len. rewrite length_app. lia. Qed.

Lemma len_cons (a : byte) b : len (a :: b) = 1 + len b.
Proof. unfold len. cbn [length]. lia. Qed.

Lemma getitem_nat b i : 0 <= i -> getitem b i = nth_error b (Z.to_nat i).
Proof.
  intros Hi. unfold getitem.
  destruct (Z.ltb_spec i 0); [lia | reflexivity].
Qed.

Lemma getitem_in_range b i : 0 <= i < len b -> exists v, getitem b i = Some v.
Proof.
  intros Hi. rewrite getitem_nat by lia.
  destruct (nth_error b (Z.to_nat i)) eqn:E; eauto.
  apply nth_error_None in E. unfold len in Hi. lia.
Qed.

Lemma getitem_past_end b i : len b <= i -> getitem b i = None.
Proof.
  intros Hi. pose proof (len_nonneg b).
  rewrite getitem_nat by lia.
  apply nth_error_None. unfold len in Hi. lia.
Qed.

Lemma getitem_app_mid pre (a : byte) post : getitem (pre ++ a :: post) (len pre) = Some a.
Proof.
  rewrite getitem_nat by apply len_nonneg.
  unfold len. rewrite Nat2Z.id, nth_error_app2, Nat.sub_diag by lia. reflexivity.
Qed.

Lemma skipn_nth_error {A} (l : list A) k a :
  nth_error l k = Some a -> skipn k l = a :: skipn (S k) l.
Proof.
  revert l. induction k as [|k IH]; intros [|h t] E; cbn in E; try discriminate.
  - now inversion E.
  - cbn [skipn]. now apply IH.
Qed.

(** A slice with both bounds inside the buffer. *)
Lemma slice_inside b lo hi :
  0 <= lo <= hi -> hi <= len b ->
  slice b lo hi = firstn (Z.to_nat (hi - lo)) (skipn (Z.to_nat lo) b).
Proof.
  intros H1 H2. unfold slice, slice_bound.
  destruct (Z.ltb_spec lo 0), (Z.ltb_spec hi 0); try lia.
  rewrite !Z.min_l by lia. reflexivity.
Qed.

Lemma slice_empty b lo : 0 <= lo -> slice b lo lo = [].
Proof.
  intros H. unfold slice. rewrite Z.sub_diag. reflexivity.
Qed.

Lemma slice_app_mid pre x post :
  slice (pre ++ x ++ post) (len pre) (len pre + len x) = x.
Proof.
  pose proof (len_nonneg pre). pose proof (len_nonneg x). pose proof (len_nonneg post).
  rewrite slice_inside by (rewrite ?len_app; lia).
  unfold len. rewrite Nat2Z.id.
  replace (Z.to_nat (Z.of_nat (length pre) + Z.of_nat (length x) - Z.of_nat (length pre)))
    with (length x) by lia.
  rewrite skipn_app, skipn_all, Nat.sub_diag. cbn [skipn app].
  rewrite firstn_app, firstn_all, Nat.sub_diag. cbn [firstn]. apply app_nil_r.
Qed.

Lemma slice_length b lo hi :
  0 <= lo <= hi -> hi <= len b -> len (slice b lo hi) = hi - lo.
Proof.
  intros H1 H2. rewrite slice_inside by lia.
  unfold len in *. rewrite length_firstn, length_skipn. lia.
Qed.

Lemma le_combine_nonneg bs : 0 <= le_combine bs.
Proof. apply le_combine_bound. Qed.

Lemma le_combine_le_split_4 z : 0 <= z < 2 ^ 32 -> le_combine (le_split 4 z) = z.
Proof.
  intros H. rewrite le_combine_split.
  change (Z.of_nat 4 * 8) with 32. apply Z.mod_small. exact H.
Qed.

End PyFacts.

(** ** Facts about the statement monad and the loops *)

Section LoopFacts.


Variable modified : bytes.

(** The inner loop over a payload that lies inside the buffer folds
    exactly those bytes into the checksum and prints nothing. *)
Lemma xor_loop_inside off : forall n j c,
  0 <= off + j -> off + j + Z.of_nat n <= len modified ->
  for_loop n j (xor_data_byte modified off) c =
  ([], Next (xor_fold c (firstn n (skipn (Z.to_nat (off + j)) modified)))).
Proof.
  induction n as [|n IH]; intros j c H0 H1.
  - reflexivity.
  - cbn [for_loop]. unfold xor_data_byte at 1, index.
    rewrite getitem_nat by lia.
    destruct (nth_error modified (Z.to_nat (off + j))) as [v|] eqn:E.
    2:{ apply nth_error_None in E. unfold len in H1. lia. }
    rewrite (skipn_nth_error _ _ _ E). cbn [firstn xor_fold fold_left].
    cbn [ret bind app]. rewrite IH by lia.
    replace (Z.to_nat (off + (j + 1))) with (S (Z.to_nat (off + j))) by lia.
    reflexivity.
Qed.

(** The inner loop over a payload that runs past the end of the buffer
    raises IndexError. *)
Lemma xor_loop_past_end off : forall n j c,
  0 <= off + j -> (0 < n)%nat -> len modified < off + j + Z.of_nat n ->
  for_loop n j (xor_data_byte modified off) c = ([], Raised IndexError).
Proof.
  induction n as [|n IH]; intros j c H0 Hn H1; [lia|].
  cbn [for_loop]. unfold xor_data_byte at 1, index.
  destruct (Z.le_gt_cases (len modified) (off + j)) as [Hout|Hin].
  - rewrite getitem_past_end by lia. reflexivity.
  - destruct (getitem_in_range modified (off + j)) as [v ->]; [lia|].
    cbn [ret bind app]. rewrite IH by lia. reflexivity.
Qed.

(** One iteration of the segment loop when the declared payload lies
    inside the buffer (or is empty). *)
Lemma segment_body_inside i w :
  0 <= offset w ->
  let n := le_combine (slice modified (offset w + 4) (offset w + 8)) in
  n = 0 \/ offset w + 8 + n <= len modified ->
  segment_body modified i w =
  ([PSegment i (le_combine (slice modified (offset w) (offset w + 4))) n],
   Next {| offset := offset w + 8 + n;
           checksum := xor_fold (checksum w)
                         (slice modified (offset w + 8) (offset w + 8 + n));
           total_data_bytes := total_data_bytes w + n |}).
Proof.
  intros Hoff n Hn. unfold segment_body, int_from_bytes_little, for_range.
  fold n. pose proof (le_combine_nonneg (slice modified (offset w + 4) (offset w + 8))) as Hn0.
  fold n in Hn0. unfold print. cbn [bind].
  destruct Hn as [Hz|Hin].
  - rewrite Hz. cbn [Z.to_nat for_loop ret app]. rewrite Z.add_0_r.
    rewrite slice_empty by lia. reflexivity.
  - rewrite xor_loop_inside by lia. rewrite Z.add_0_r.
    rewrite (slice_inside modified (offset w + 8) (offset w + 8 + n)) by lia.
    replace (offset w + 8 + n - (offset w + 8)) with n by lia.
    reflexivity.
Qed.

(** One iteration of the segment loop when the declared payload runs
    past the end of the buffer: the record is printed, then IndexError. *)
Lemma segment_body_past_end i w :
  0 <= offset w ->
  let n := le_combine (slice modified (offset w + 4) (offset w + 8)) in
  0 < n -> len modified < offset w + 8 + n ->
  segment_body modified i w =
  ([PSegment i (le_combine (slice modified (offset w) (offset w + 4))) n],
   Raised IndexError).
Proof.
  intros Hoff n Hn Hout. unfold segment_body, int_from_bytes_little, for_range.
  fold n. unfold print. cbn [bind].
  rewrite xor_loop_past_end by lia. reflexivity.
Qed.

End LoopFacts.

(** ** The segment walk of the script against the Segment Walker *)


Section WalkFacts.

Lemma records_size_cons s segs :
  records_size (s :: segs) = 8 + data_length s + records_size segs.
Proof. reflexivity. Qed.

Lemma payload_size_cons s segs :
  payload_size (s :: segs) = data_length s + payload_size segs.
Proof. reflexivity. Qed.



Lemma records_size_app segs1 segs2 :
  records_size (segs1 ++ segs2) = records_size segs1 + records_size segs2.
Proof.
  induction segs1 as [|s segs1 IH]; [reflexivity|].
  cbn [app]. rewrite !records_size_cons. lia.
Qed.

Lemma len_encode_segment s : len (encode_segment s) = 8 + data_length s.
Proof.
  unfold encode_segment, data_length. rewrite !len_app.
  unfold len at 1 2. rewrite !length_le_split. lia.
Qed.

Lemma len_encode_segments segs : len (encode_segments segs) = records_size segs.
Proof.
  induction segs as [|s segs IH]; [reflexivity|].
  rewrite records_size_cons. cbn [encode_segments flat_map].
  fold (encode_segments segs).
  rewrite len_app, len_encode_segment, IH. reflexivity.
Qed.


Lemma segment_lines_app segs1 segs2 i :
  segment_lines i (segs1 ++ segs2) =
  segment_lines i segs1 ++ segment_lines (i + Z.of_nat (length segs1)) segs2.
Proof.
  revert i. induction segs1 as [|s segs1 IH]; intros i; cbn [segment_lines app length].
  - f_equal. lia.
  - rewrite IH. do 3 f_equal. lia.
Qed.

(** Whenever the Segment Walker accepts a buffer, the loop of the script
    completes on it, prints the same descriptors, leaves the cursor after
    the last record and has folded exactly the payloads. *)
Lemma walk_refines_spec modified : forall n cursor i w segs,
  0 <= cursor -> offset w = cursor ->
  spec_walk modified n cursor = inr segs ->
  for_loop n i (segment_body modified) w =
  (segment_lines i segs,
   Next {| offset := cursor + records_size segs;
           checksum := fold_segments (checksum w) segs;
           total_data_bytes := total_data_bytes w + payload_size segs |}).
Proof.
  induction n as [|n IH]; intros cursor i w segs Hc Hw Hs; cbn [spec_walk] in Hs.
  - inversion Hs; subst. cbn [for_loop segment_lines records_size payload_size
      fold_segments fold_right fold_left]. unfold ret.
    rewrite !Z.add_0_r. now destruct w.
  - destruct (Z.ltb_spec (len modified) (cursor + 8)) as [|H8]; [discriminate|].
    set (n0 := le_combine (slice modified (cursor + 4) (cursor + 8))) in *.
    destruct (Z.ltb_spec (len modified) (cursor + 8 + n0)) as [|Hn0]; [discriminate|].
    destruct (spec_walk modified n (cursor + 8 + n0)) as [e|segs'] eqn:Hrec; [discriminate|].
    inversion Hs; subst segs; clear Hs.
    assert (0 <= n0) by apply le_combine_nonneg.
    cbn [for_loop]. rewrite segment_body_inside by (rewrite ?Hw; fold n0; lia).
    rewrite Hw. fold n0. cbn [bind].
    erewrite IH; [| | reflexivity | exact Hrec]; [|cbn [offset]; lia].
    rewrite records_size_cons, payload_size_cons.
    unfold data_length; cbn [segment_lines load_address data app checksum
      total_data_bytes offset].
    unfold data_length; cbn [data].
    rewrite !slice_length by lia.
    replace (cursor + 8 + n0 - (cursor + 8)) with n0 by lia.
    unfold fold_segments; cbn [fold_left data].
    do 3 f_equal; lia.
Qed.

(** The Segment Walker decodes what [encode_segments] wrote. *)
Lemma spec_walk_encoded : forall segs pre rest,
  Forall segment_ok segs ->
  spec_walk (pre ++ encode_segments segs ++ rest) (length segs) (len pre) = inr segs.
Proof.
  induction segs as [|s segs IH]; intros pre rest Hok; [reflexivity|].
  inversion Hok as [|? ? [Ha Hl] Hok']; subst.
  cbn [length spec_walk encode_segments flat_map].
  fold (encode_segments segs).
  pose proof (len_nonneg pre). pose proof (len_nonneg (data s)) as Hd.
  fold (data_length s) in Hd.
  set (buf := pre ++ (encode_segment s ++ encode_segments segs) ++ rest).
  assert (Hlen : len pre + 8 + data_length s <= len buf).
  { unfold buf. rewrite !len_app, len_encode_segment.
    pose proof (len_nonneg (encode_segments segs)). pose proof (len_nonneg rest). lia. }
  destruct (Z.ltb_spec (len buf) (len pre + 8)); [lia|].
  assert (E1 : slice buf (len pre) (len pre + 4) = le_split 4 (load_address s)).
  { unfold buf, encode_segment. rewrite <- !app_assoc.
    replace 4 with (len (le_split 4 (load_address s)))
      by (unfold len; now rewrite length_le_split).
    apply slice_app_mid. }
  assert (E2 : slice buf (len pre + 4) (len pre + 8) = le_split 4 (data_length s)).
  { unfold buf, encode_segment. rewrite <- !app_assoc.
    rewrite (app_assoc pre).
    replace (len pre + 4) with (len (pre ++ le_split 4 (load_address s)))
      by (rewrite len_app; unfold len at 2; now rewrite length_le_split).
    replace (len pre + 8) with
      (len (pre ++ le_split 4 (load_address s)) + len (le_split 4 (data_length s)))
      by (rewrite len_app; unfold len at 2 3; rewrite !length_le_split; lia).
    apply slice_app_mid. }
  assert (E3 : slice buf (len pre + 8) (len pre + 8 + data_length s) = data s).
  { unfold buf, encode_segment. rewrite <- !app_assoc.
    rewrite (app_assoc (le_split 4 (load_address s))), (app_assoc pre).
    replace (len pre + 8) with
      (len (pre ++ le_split 4 (load_address s) ++ le_split 4 (data_length s)))
      by (rewrite !len_app; unfold len at 2 3; rewrite !length_le_split; lia).
    apply slice_app_mid. }
  rewrite E1, E2, !le_combine_le_split_4, E3 by lia.
  destruct (Z.ltb_spec (len buf) (len pre + 8 + data_length s)); [lia|].
  replace (len pre + 8 + data_length s) with (len (pre ++ encode_segment s))
    by (rewrite len_app, len_encode_segment; lia).
  unfold buf. rewrite <- app_assoc, (app_assoc pre).
  rewrite IH by assumption. now destruct s.
Qed.

(** Whenever the loop of the script completes, it has folded exactly the
    declared payloads. *)
Lemma walk_folds_declared modified : forall n i w log w',
  0 <= offset w ->
  for_loop n i (segment_body modified) w = (log, Next w') ->
  checksum w' = xor_fold (checksum w) (concat (declared_payloads modified n (offset w))).
Proof.
  induction n as [|n IH]; intros i w log w' Hoff Hrun.
  - cbn [for_loop] in Hrun. inversion Hrun; subst. reflexivity.
  - cbn [for_loop declared_payloads concat] in *.
    set (n0 := le_combine (slice modified (offset w + 4) (offset w + 8))) in *.
    assert (Hn0 : 0 <= n0) by apply le_combine_nonneg.
    assert (Hcase : (n0 = 0 \/ offset w + 8 + n0 <= len modified) \/
                    (0 < n0 /\ len modified < offset w + 8 + n0)) by lia.
    destruct Hcase as [Hin|[Hpos Hout]].
    + rewrite segment_body_inside in Hrun by (try fold n0; assumption).
      fold n0 in Hrun. cbn [bind] in Hrun.
      destruct (for_loop n (i + 1) (segment_body modified) _) as [l1 [w1| |e1]] eqn:E1;
        try discriminate.
      inversion Hrun; subst log w'; clear Hrun.
      apply IH in E1; [|cbn [offset]; lia].
      cbn [offset checksum] in E1. rewrite E1.
      unfold xor_fold. now rewrite fold_left_app.
    + rewrite segment_body_past_end in Hrun by (try fold n0; assumption).
      cbn [bind] in Hrun. discriminate.
Qed.

(** On a buffer the Segment Walker accepts, the declared payloads are the
    data of the segments it returns. *)
Lemma declared_payloads_spec modified : forall n cursor segs,
  0 <= cursor ->
  spec_walk modified n cursor = inr segs ->
  declared_payloads modified n cursor = map data segs.
Proof.
  induction n as [|n IH]; intros cursor segs Hc Hs; cbn [spec_walk] in Hs.
  - inversion Hs. reflexivity.
  - destruct (len modified <? cursor + 8); [discriminate|].
    set (n0 := le_combine (slice modified (cursor + 4) (cursor + 8))) in *.
    assert (Hn0 : 0 <= n0) by apply le_combine_nonneg.
    destruct (len modified <? cursor + 8 + n0); [discriminate|].
    destruct (spec_walk modified n (cursor + 8 + n0)) as [e|segs'] eqn:Hrec; [discriminate|].
    inversion Hs; subst segs. cbn [declared_payloads map data]. fold n0.
    f_equal. apply IH; [lia | exact Hrec].
Qed.

(** The loop over the data bytes prints nothing. *)
Lemma xor_loop_silent modified off : forall n j c,
  out (for_loop n j (xor_data_byte modified off) c) = [].
Proof.
  induction n as [|n IH]; intros j c; [reflexivity|].
  cbn [for_loop]. unfold xor_data_byte at 1, index.
  destruct (getitem modified (off + j)); [|reflexivity].
  cbn [ret bind app]. specialize (IH (j + 1) (Z.lxor c (byte.unsigned b))).
  destruct (for_loop n (j + 1) (xor_data_byte modified off) _). exact IH.
Qed.

(** The segment loop prints descriptors only, never a checksum. *)
Lemma walk_reports_no_checksum modified : forall n i w,
  reported_checksum (out (for_loop n i (segment_body modified) w)) = None.
Proof.
  induction n as [|n IH]; intros i w; [reflexivity|].
  cbn [for_loop]. unfold segment_body at 1, for_range, print. cbn [bind].
  match goal with
  | |- context [for_loop ?k 0 (xor_data_byte modified ?o) ?c] =>
      pose proof (xor_loop_silent modified o k 0 c) as Hs;
      destruct (for_loop k 0 (xor_data_byte modified o) c) as [l1 [c1| |e1]]
  end; unfold out in Hs; cbn [fst] in Hs; subst l1; cbn [bind ret app]; try reflexivity.
  match goal with
  | |- context [for_loop n (i + 1) (segment_body modified) ?w1] =>
      specialize (IH (i + 1) w1);
      destruct (for_loop n (i + 1) (segment_body modified) w1) as [l2 r2]
  end.
  exact IH.
Qed.

End WalkFacts.

(** ** What a log reports *)

Section LogFacts.

Lemma descriptors_app l1 l2 : descriptors (l1 ++ l2) = descriptors l1 ++ descriptors l2.
Proof.
  induction l1 as [|x l1 IH]; [reflexivity|].
  destruct x; cbn [app descriptors]; rewrite ?IH; reflexivity.
Qed.

Lemma reported_checksum_app l1 l2 :
  reported_checksum (l1 ++ l2) =
  match reported_checksum l1 with
  | Some c => Some c
  | None => reported_checksum l2
  end.
Proof.
  induction l1 as [|x l1 IH]; [reflexivity|].
  destruct x; cbn [app reported_checksum]; rewrite ?IH; reflexivity.
Qed.

Lemma descriptors_segment_lines segs : forall i,
  descriptors (segment_lines i segs) =
  map (fun s => (load_address s, data_length s)) segs.
Proof.
  induction segs as [|s segs IH]; intros i; [reflexivity|].
  cbn [segment_lines descriptors map]. now rewrite IH.
Qed.

Lemma reported_checksum_segment_lines segs : forall i,
  reported_checksum (segment_lines i segs) = None.
Proof.
  induction segs as [|s segs IH]; intros i; [reflexivity|].
  cbn [segment_lines reported_checksum]. apply IH.
Qed.

Lemma descriptors_found l : Forall is_found l -> descriptors l = [].
Proof.
  induction 1 as [|x l Hx _ IH]; [reflexivity|].
  destruct x; cbn in Hx; try contradiction. exact IH.
Qed.

Lemma descriptors_position l : Forall is_position l -> descriptors l = [].
Proof.
  induction 1 as [|x l Hx _ IH]; [reflexivity|].
  destruct x; cbn in Hx; try contradiction; exact IH.
Qed.

Lemma reported_checksum_position l : Forall is_position l -> reported_checksum l = None.
Proof.
  induction 1 as [|x l Hx _ IH]; [reflexivity|].
  destruct x; cbn in Hx; try contradiction; exact IH.
Qed.

Lemma banner_not_position l : Forall is_position l -> ~ In PCalculatingBanner l.
Proof.
  intros H Hin. rewrite Forall_forall in H. exact (H _ Hin).
Qed.

End LogFacts.

(** ** The checksum calculation as a whole *)

Section CalculateFacts.

Variable modified : bytes.

(** The search over the file reads every index in range: it completes
    and prints only [PFound] lines. *)
Lemma search_loop_completes c : forall n i,
  0 <= i -> i + Z.of_nat n <= len modified ->
  exists l, for_loop n i (search_body modified c) tt = (l, Next tt) /\ Forall is_found l.
Proof.
  induction n as [|n IH]; intros i H0 H1.
  - exists []. split; [reflexivity | constructor].
  - cbn [for_loop]. unfold search_body at 1, index.
    destruct (getitem_in_range modified i) as [v ->]; [lia|].
    destruct (IH (i + 1)) as (l & El & Fl); [lia | lia |].
    cbn [ret bind app].
    destruct (byte.unsigned v =? c); [destruct (len modified - 40 <=? i)|];
      unfold print, ret; cbn [bind]; rewrite El.
    + exists (PFound i (len modified - i) :: l). split; [reflexivity|].
      constructor; [exact I | exact Fl].
    + exists l. now split.
    + exists l. now split.
Qed.

Lemma search_completes c :
  exists l, for_range (len modified) (search_body modified c) tt = (l, Next tt)
            /\ Forall is_found l.
Proof.
  unfold for_range. apply search_loop_completes; [lia|].
  unfold len. rewrite Nat2Z.id. lia.
Qed.

End CalculateFacts.

Section CalculateValidMagic.

Variables (count : byte) (rest : bytes).
Let modified : bytes := Byte.xe9 :: count :: rest.

(** With the magic byte in place, the calculation completes whenever the
    segment walk does, and reports the checksum the walk accumulated. *)
Lemma calculate_completes lw w :
  walk_segments modified (byte.unsigned count) = (lw, Next w) ->
  exists found,
    Forall is_found found /\
    calculate_expected_checksum modified =
    (PCalculatingBanner :: PSegmentCount (byte.unsigned count) :: lw ++
     PTotalDataBytes (total_data_bytes w) :: PExpectedChecksum (checksum w) ::
     PBlank :: PSearchingBanner (checksum w) :: found,
     Next tt).
Proof.
  intros Hw. destruct (search_completes modified (checksum w)) as (found & Ef & Ff).
  exists found. split; [exact Ff|].
  unfold calculate_expected_checksum, index. fold modified.
  change (getitem modified 0) with (Some Byte.xe9).
  change (getitem modified 1) with (Some count).
  cbn [ret bind print app negb]. change (byte.unsigned Byte.xe9 =? 233) with true.
  cbn [negb ret bind app]. rewrite Hw. cbn [bind]. rewrite Ef.
  reflexivity.
Qed.

(** When the segment walk raises, so does the calculation, after the
    lines of the walk and without a checksum line. *)
Lemma calculate_raises lw e :
  walk_segments modified (byte.unsigned count) = (lw, Raised e) ->
  calculate_expected_checksum modified =
  (PCalculatingBanner :: PSegmentCount (byte.unsigned count) :: lw, Raised e).
Proof.
  intros Hw.
  unfold calculate_expected_checksum, index. fold modified.
  change (getitem modified 0) with (Some Byte.xe9).
  change (getitem modified 1) with (Some count).
  cbn [ret bind print app negb]. change (byte.unsigned Byte.xe9 =? 233) with true.
  cbn [negb ret bind app]. rewrite Hw. reflexivity.
Qed.

End CalculateValidMagic.

(** ** The position report and the script as a whole *)

Section ReportFacts.

Variables original modified : bytes.

Ltac step_index :=
  match goal with
  | |- context [getitem ?b ?i] => destruct (getitem b i)
  end.

(** Whatever it does, the position report prints neither a descriptor
    nor a checksum nor the banner of the calculation. *)
Lemma report_positions_log : Forall is_position (out (report_positions original modified)).
Proof.
  unfold report_positions, index, local, print, ret, raise.
  destruct (33 <=? len original); cbn [bind app];
    repeat (step_index; cbn [bind app]);
    unfold out; cbn [fst]; repeat constructor.
Qed.

(** The position report completes when the original file has a checksum
    slot and every position it reads exists in the modified file. *)
Lemma report_positions_completes :
  33 <= len original -> len original - 33 < len modified -> 17 <= len modified ->
  res (report_positions original modified) = Next tt.
Proof.
  intros H1 H2 H3.
  destruct (getitem_in_range original (len original - 32 - 1)) as [v1 E1]; [lia|].
  destruct (getitem_in_range modified (len original - 32 - 1)) as [v2 E2]; [lia|].
  assert (exists v, getitem modified (len modified - 33) = Some v) as [v3 E3].
  { destruct (Z.le_gt_cases 33 (len modified)).
    - apply getitem_in_range. lia.
    - unfold getitem. destruct (Z.ltb_spec (len modified - 33) 0); [|lia].
      destruct (Z.leb_spec 0 (len modified + (len modified - 33))); [|lia].
      destruct (nth_error modified (Z.to_nat (len modified + (len modified - 33)))) eqn:E;
        eauto.
      apply nth_error_None in E. unfold len in *. lia. }
  destruct (getitem_in_range modified (len modified - 1)) as [v4 E4]; [lia|].
  unfold report_positions, index, local, print, ret, raise.
  destruct (Z.leb_spec 33 (len original)); [|lia].
  repeat (cbn [bind app]; rewrite ?E1, ?E2, ?E3, ?E4).
  reflexivity.
Qed.

(** A run that printed the banner of the calculation went through the
    whole position report; its log is that report followed by the log of
    the calculation. *)
Lemma reconstruct_reaches_calculation :
  In PCalculatingBanner (out (reconstruct_firmware original modified)) ->
  exists lp,
    Forall is_position lp /\
    reconstruct_firmware original modified =
    (lp ++ out (calculate_expected_checksum modified),
     res (calculate_expected_checksum modified)).
Proof.
  pose proof report_positions_log as Hlog.
  unfold reconstruct_firmware.
  destruct (report_positions original modified) as [lp [[]| |e]];
    unfold out in Hlog; cbn [fst] in Hlog; cbn [bind].
  - intros _. exists lp. split; [exact Hlog|].
    unfold out, res. now destruct (calculate_expected_checksum modified).
  - intros Hin. now apply banner_not_position in Hin.
  - intros Hin. now apply banner_not_position in Hin.
Qed.

Lemma reconstruct_after_report :
  res (report_positions original modified) = Next tt ->
  exists lp,
    Forall is_position lp /\
    reconstruct_firmware original modified =
    (lp ++ out (calculate_expected_checksum modified),
     res (calculate_expected_checksum modified)).
Proof.
  pose proof report_positions_log as Hlog.
  unfold reconstruct_firmware.
  destruct (report_positions original modified) as [lp r].
  unfold res, out in *; cbn [fst snd] in *. intros ->.
  exists lp. split; [exact Hlog|]. cbn [bind].
  now destruct (calculate_expected_checksum modified).
Qed.

End ReportFacts.

(** ** Well-formed images *)

Section ImageFacts.

Lemma len_header n opaque ext :
  length opaque = 6%nat -> length ext = 16%nat -> len (header n opaque ext) = 24.
Proof.
  intros Ho He. unfold header, len. cbn [length]. rewrite length_app, Ho, He. reflexivity.
Qed.

Lemma count_byte n : (n < 256)%nat -> byte.unsigned (byte.of_Z (Z.of_nat n)) = Z.of_nat n.
Proof.
  intros Hn. rewrite byte.unsigned_of_Z. unfold byte.wrap. apply Z.mod_small.
  change (2 ^ 8) with 256. lia.
Qed.

(** On a well-formed image the walk decodes every record, ends right
    after the last one and has accumulated the checksum of the payloads. *)
Lemma walk_image opaque ext segs rest :
  length opaque = 6%nat -> length ext = 16%nat -> Forall segment_ok segs ->
  walk_segments (image opaque ext segs rest) (Z.of_nat (length segs)) =
  (segment_lines 0 segs,
   Next {| offset := 24 + records_size segs;
           checksum := compute_checksum segs;
           total_data_bytes := payload_size segs |}).
Proof.
  intros Ho He Hok. unfold walk_segments, for_range. rewrite Nat2Z.id.
  erewrite walk_refines_spec with (cursor := 24) (segs := segs);
    [reflexivity | lia | reflexivity |].
  unfold image. rewrite <- (len_header (Z.of_nat (length segs)) opaque ext Ho He).
  now apply spec_walk_encoded.
Qed.

Lemma calculate_image opaque ext segs rest :
  length opaque = 6%nat -> length ext = 16%nat ->
  (length segs < 256)%nat -> Forall segment_ok segs ->
  exists found,
    Forall is_found found /\
    calculate_expected_checksum (image opaque ext segs rest) =
    (PCalculatingBanner :: PSegmentCount (Z.of_nat (length segs)) ::
     segment_lines 0 segs ++
     PTotalDataBytes (payload_size segs) :: PExpectedChecksum (compute_checksum segs) ::
     PBlank :: PSearchingBanner (compute_checksum segs) :: found,
     Next tt).
Proof.
  intros Ho He Hlt Hok.
  pose proof (walk_image opaque ext segs rest Ho He Hok) as Hw.
  rewrite <- (count_byte _ Hlt) in Hw at 1.
  destruct (calculate_completes _ _ _ _ Hw) as (found & Ff & Ec).
  exists found. split; [exact Ff|].
  rewrite (count_byte _ Hlt) in Ec. exact Ec.
Qed.

Lemma reported_checksum_image opaque ext segs rest :
  length opaque = 6%nat -> length ext = 16%nat ->
  (length segs < 256)%nat -> Forall segment_ok segs ->
  reported_checksum (out (calculate_expected_checksum (image opaque ext segs rest))) =
  Some (compute_checksum segs).
Proof.
  intros Ho He Hlt Hok.
  destruct (calculate_image opaque ext segs rest Ho He Hlt Hok) as (found & _ & ->).
  unfold out; cbn [fst reported_checksum].
  now rewrite reported_checksum_app, reported_checksum_segment_lines.
Qed.

End ImageFacts.

(** ** Algebra of the XOR fold *)

Section XorFacts.

Lemma xor_fold_seed c bs : xor_fold c bs = Z.lxor c (xor_fold 0 bs).
Proof.
  revert c. induction bs as [|b bs IH]; intros c; cbn [xor_fold fold_left].
  - now rewrite Z.lxor_0_r.
  - fold (xor_fold (Z.lxor c (byte.unsigned b)) bs).
    fold (xor_fold (Z.lxor 0 (byte.unsigned b)) bs).
    rewrite IH, (IH (Z.lxor 0 _)), Z.lxor_0_l, Z.lxor_assoc. reflexivity.
Qed.

Lemma xor_fold_app c bs1 bs2 : xor_fold c (bs1 ++ bs2) = xor_fold (xor_fold c bs1) bs2.
Proof. apply fold_left_app. Qed.

Lemma fold_segments_concat segs : forall c,
  fold_segments c segs = xor_fold c (concat (map data segs)).
Proof.
  induction segs as [|s segs IH]; intros c; [reflexivity|].
  cbn [map concat]. rewrite xor_fold_app, <- IH. reflexivity.
Qed.

Lemma fold_segments_partials segs : forall c,
  fold_segments c segs = Z.lxor c (fold_right Z.lxor 0 (map partial_checksum segs)).
Proof.
  induction segs as [|s segs IH]; intros c; cbn [map fold_right].
  - cbn. now rewrite Z.lxor_0_r.
  - unfold fold_segments; cbn [fold_left]. fold (fold_segments (xor_fold c (data s)) segs).
    rewrite IH, (xor_fold_seed c). unfold partial_checksum.
    now rewrite Z.lxor_assoc.
Qed.

Lemma xor_partials_perm (l l' : list Z) :
  Permutation l l' -> fold_right Z.lxor 0 l = fold_right Z.lxor 0 l'.
Proof.
  induction 1 as [|x l l' _ IH|x y l|l l' l'' _ IH1 _ IH2]; cbn [fold_right].
  - reflexivity.
  - now rewrite IH.
  - rewrite <- !Z.lxor_assoc, (Z.lxor_comm y x). reflexivity.
  - congruence.
Qed.

Lemma compute_checksum_perm segs segs' :
  Permutation segs segs' -> compute_checksum segs = compute_checksum segs'.
Proof.
  intros Hp. unfold compute_checksum.
  change (fold_segments 239 segs = fold_segments 239 segs').
  rewrite !fold_segments_partials. f_equal.
  apply xor_partials_perm. now apply Permutation_map.
Qed.

End XorFacts.

(** ** Facts used by the resealer *)

Section ResealFacts.

Lemma lxor_byte_range a b : 0 <= a < 2 ^ 8 -> 0 <= b < 2 ^ 8 -> 0 <= Z.lxor a b < 2 ^ 8.
Proof.
  intros Ha Hb.
  assert (H0 : 0 <= Z.lxor a b) by (apply Z.lxor_nonneg; lia).
  split; [exact H0|].
  destruct (Z.eq_dec (Z.lxor a b) 0) as [->|Hnz]; [reflexivity|].
  apply Z.log2_lt_pow2; [lia|].
  eapply Z.le_lt_trans; [apply Z.log2_lxor; lia|].
  apply Z.max_lub_lt.
  - destruct (Z.eq_dec a 0) as [->|]; [reflexivity|]. apply Z.log2_lt_pow2; lia.
  - destruct (Z.eq_dec b 0) as [->|]; [reflexivity|]. apply Z.log2_lt_pow2; lia.
Qed.

Lemma xor_fold_byte_range bs : forall c, 0 <= c < 2 ^ 8 -> 0 <= xor_fold c bs < 2 ^ 8.
Proof.
  induction bs as [|b bs IH]; intros c Hc; [exact Hc|].
  cbn [xor_fold fold_left]. apply IH.
  apply lxor_byte_range; [exact Hc | apply byte.unsigned_range].
Qed.

(** The checksum of any segments is one byte. *)
Lemma compute_checksum_byte segs :
  byte.unsigned (byte.of_Z (compute_checksum segs)) = compute_checksum segs.
Proof.
  rewrite byte.unsigned_of_Z. unfold byte.wrap. apply Z.mod_small.
  unfold compute_checksum. change (fold_left _ segs 239) with (fold_segments 239 segs).
  rewrite fold_segments_concat. apply xor_fold_byte_range. cbn; lia.
Qed.

Lemma parse_header_valid segment_count rest :
  24 <= len (Byte.xe9 :: segment_count :: rest) ->
  parse_header (Byte.xe9 :: segment_count :: rest) = inr (byte.unsigned segment_count).
Proof.
  intros H. cbn [parse_header].
  change (byte.unsigned Byte.xe9 =? 233) with true. cbn [negb].
  destruct (Z.ltb_spec (len (Byte.xe9 :: segment_count :: rest)) 24); [lia|reflexivity].
Qed.

Lemma firstn_len_app (a b : bytes) : firstn (Z.to_nat (len a)) (a ++ b) = a.
Proof.
  unfold len. rewrite Nat2Z.id, firstn_app, Nat.sub_diag, firstn_all.
  apply app_nil_r.
Qed.

Lemma skipn_len_app (a b : bytes) : skipn (Z.to_nat (len a)) (a ++ b) = b.
Proof.
  unfold len. rewrite Nat2Z.id, skipn_app, Nat.sub_diag, skipn_all. reflexivity.
Qed.

End ResealFacts.



(** ** The claims *)

(** C1. On a buffer that starts with the magic byte 0xE9 the checksum the
    script computes is the seed 0xEF XOR-folded over exactly the payload
    bytes of the declared segments: the records are read one after the
    other from offset 24, the 8-byte header of each (little-endian load
    address and data length) is only decoded and printed, the data_length
    bytes after it are folded into the checksum, and the cursor moves
    8 + data_length further for each of the segment_count records. That
    holds whenever the loop completes, and it does complete, with these
    descriptors and this checksum reported, whenever the declared records
    lie inside the buffer. *)
Theorem checksum_folds_declared_payloads (count : byte) (rest : bytes) :
  let modified := Byte.xe9 :: count :: rest in
  let n := Z.to_nat (byte.unsigned count) in
  (forall log w,
     walk_segments modified (byte.unsigned count) = (log, Next w) ->
     checksum w = xor_fold 0xEF (concat (declared_payloads modified n 24)) /\
     reported_checksum (out (calculate_expected_checksum modified)) = Some (checksum w)) /\
  (forall segs,
     spec_walk modified n 24 = inr segs ->
     declared_payloads modified n 24 = map data segs /\
     walk_segments modified (byte.unsigned count) =
       (segment_lines 0 segs,
        Next {| offset := 24 + records_size segs;
                checksum := xor_fold 0xEF (concat (map data segs));
                total_data_bytes := payload_size segs |}) /\
     res (calculate_expected_checksum modified) = Next tt /\
     reported_checksum (out (calculate_expected_checksum modified)) =
       Some (xor_fold 0xEF (concat (map data segs))) /\
     descriptors (out (calculate_expected_checksum modified)) =
       map (fun s => (load_address s, data_length s)) segs).
Proof.
  intros modified n. split.
  - intros log w Hw. split.
    + apply (walk_folds_declared modified n 0
               {| offset := 24; checksum := 239; total_data_bytes := 0 |} log w);
        [cbn [offset]; lia | exact Hw].
    + destruct (calculate_completes _ _ _ _ Hw) as (found & Ff & Ec).
      fold modified in Ec. rewrite Ec. unfold out; cbn [fst reported_checksum].
      rewrite reported_checksum_app.
      pose proof (walk_reports_no_checksum modified n 0
                    {| offset := 24; checksum := 239; total_data_bytes := 0 |}) as Hlog.
      unfold walk_segments, for_range in Hw. fold n in Hw. rewrite Hw in Hlog.
      unfold out in Hlog; cbn [fst] in Hlog.
      rewrite Hlog. reflexivity.
  - intros segs Hs.
    assert (Hw : walk_segments modified (byte.unsigned count) =
      (segment_lines 0 segs,
       Next {| offset := 24 + records_size segs;
               checksum := xor_fold 0xEF (concat (map data segs));
               total_data_bytes := payload_size segs |})).
    { unfold walk_segments, for_range.
      erewrite walk_refines_spec with (cursor := 24) (segs := segs);
        [| lia | reflexivity | exact Hs].
      cbn [checksum total_data_bytes]. now rewrite fold_segments_concat. }
    split; [apply declared_payloads_spec; [lia | exact Hs]|].
    split; [exact Hw|].
    destruct (calculate_completes _ _ _ _ Hw) as (found & Ff & Ec).
    fold modified in Ec. rewrite Ec. unfold res, out; cbn [fst snd].
    split; [reflexivity|]. split.
    + cbn [reported_checksum]. rewrite reported_checksum_app, reported_checksum_segment_lines.
      reflexivity.
    + cbn [descriptors]. rewrite descriptors_app, descriptors_segment_lines.
      cbn [descriptors]. rewrite (descriptors_found _ Ff). apply app_nil_r.
Qed.

Lemma checksum_folds_declared_payloads_witness :
  spec_walk scenario_A 1 24 = inr [segment_A] /\
  walk_segments scenario_A 1 =
    ([PSegment 0 0 2], Next {| offset := 34; checksum := 0xEC; total_data_bytes := 2 |}) /\
  reported_checksum (out (calculate_expected_checksum scenario_A)) = Some 0xEC.
Proof.
  assert (Hs : spec_walk scenario_A 1 24 = inr [segment_A]) by reflexivity.
  assert (Hw : walk_segments scenario_A 1 =
    ([PSegment 0 0 2], Next {| offset := 34; checksum := 0xEC; total_data_bytes := 2 |}))
    by reflexivity.
  split; [exact Hs|]. split; [exact Hw|].
  destruct (checksum_folds_declared_payloads Byte.x01 (skipn 2 scenario_A)) as [Hany Hspec].
  destruct (Hspec [segment_A] Hs) as (_ & _ & _ & E & _).
  destruct (Hany _ _ Hw) as [_ E'].
  exact E.
Defined.


(** C3. In a file of length L >= 33 the script places the checksum byte at
    offset L - 33 = trailer_start - 1: the file is the image data without
    its last byte, then that one byte, then the 32 bytes of the SHA-256
    trailer, and the positions and bytes the script prints are those. *)
Theorem checksum_slot_precedes_trailer (original modified : bytes) :
  33 <= len original -> len modified = len original ->
  exists bo co to bm cm tm last,
    original = bo ++ co :: to /\ modified = bm ++ cm :: tm /\
    length to = 32%nat /\ length tm = 32%nat /\
    len bo = len original - 33 /\ len bm = len original - 33 /\
    len original - 33 = trailer_start original - 1 /\
    getitem original (trailer_start original - 1) = Some co /\
    report_positions original modified =
      ([POriginalSize (len original); PModifiedSize (len original); PBlank;
        PImageData (trailer_start original);
        PChecksumPosition (len original - 33);
        POriginalByte co; PModifiedByte cm; PBlank;
        PDataBeforeChecksum (len original - 33); PBlank;
        PAfterChecksumBanner; PRebuiltLength (len original - 33 + 1);
        PChecksumWouldBeAt (len original - 33);
        PChecksumInModified (len original - 33) cm; PBlank;
        PAfterSHABanner; PFinalLength (len original - 33 + 1 + 32);
        PChecksumFinalPosition (len original - 33);
        PMinus33Position (len original - 33);
        PMinus33Byte (len original - 33) cm; PBlank;
        PPositionsBanner; PAtCalculated (len original - 33) cm;
        PAtMinus33 (len original - 33) cm; PAtLast (len original - 1) last; PBlank],
       Next tt).
Proof.
  intros HL Hm.
  assert (Hsplit : forall b : bytes, len b = len original ->
            exists pre c t, b = pre ++ c :: t /\ length t = 32%nat /\
                            len pre = len original - 33).
  { intros b Hb. exists (firstn (Z.to_nat (len b - 33)) b).
    destruct (skipn (Z.to_nat (len b - 33)) b) as [|c t] eqn:E.
    - apply (f_equal (@length _)) in E. rewrite length_skipn in E.
      unfold len in *. cbn [length] in E. lia.
    - exists c, t. rewrite <- E, firstn_skipn. split; [reflexivity|].
      apply (f_equal (@length _)) in E. rewrite length_skipn in E. cbn [length] in E.
      unfold len in *. rewrite length_firstn. lia. }
  destruct (Hsplit original eq_refl) as (bo & co & to & Eo & Hto & Hbo).
  destruct (Hsplit modified Hm) as (bm & cm & tm & Em & Htm & Hbm).
  destruct (getitem_in_range modified (len original - 1)) as [last E4]; [lia|].
  exists bo, co, to, bm, cm, tm, last.
  assert (E1 : getitem original (len original - 33) = Some co).
  { rewrite <- Hbo. rewrite Eo at 1. apply getitem_app_mid. }
  assert (E2 : getitem modified (len original - 33) = Some cm).
  { rewrite <- Hbm. rewrite Em at 1. apply getitem_app_mid. }
  assert (Hs : len original - 32 - 1 = len original - 33) by lia.
  repeat split; try assumption.
  - unfold trailer_start. lia.
  - unfold trailer_start. now rewrite Hs.
  - unfold report_positions, index, local, print, ret, raise, trailer_start.
    rewrite Hm, Hs.
    destruct (Z.leb_spec 33 (len original)); [|lia].
    repeat (cbn [bind app]; rewrite ?Hs, ?E1, ?E2, ?E4).
    reflexivity.
Qed.

Lemma checksum_slot_precedes_trailer_witness :
  33 <= len scenario_A /\ len scenario_A = len scenario_A /\
  res (report_positions scenario_A scenario_A) = Next tt.
Proof.
  assert (H33 : 33 <= len scenario_A) by (vm_compute; discriminate).
  split; [exact H33|]. split; [reflexivity|].
  destruct (checksum_slot_precedes_trailer scenario_A scenario_A H33 eq_refl)
    as (bo & co & to & bm & cm & tm & last & _ & _ & _ & _ & _ & _ & _ & _ & E).
  rewrite E. reflexivity.
Defined.

(** C4. When the first byte is not 0xE9 the calculation prints the error
    and returns at once: the segment count is not read, no descriptor is
    decoded and no checksum is reported, whatever the original file is. *)
Theorem bad_magic_aborts (magic : byte) (rest : bytes) :
  magic <> Byte.xe9 ->
  calculate_expected_checksum (magic :: rest) =
    ([PCalculatingBanner; PErrorBadMagic], Returned) /\
  forall original,
    reported_checksum (out (reconstruct_firmware original (magic :: rest))) = None /\
    descriptors (out (reconstruct_firmware original (magic :: rest))) = [] /\
    res (reconstruct_firmware original (magic :: rest)) <> Next tt.
Proof.
  intros Hm.
  assert (Hne : (byte.unsigned magic =? 233) = false).
  { apply Z.eqb_neq. intros E. apply Hm. now apply byte.unsigned_inj. }
  assert (Hc : calculate_expected_checksum (magic :: rest) =
               ([PCalculatingBanner; PErrorBadMagic], Returned)).
  { unfold calculate_expected_checksum, index.
    change (getitem (magic :: rest) 0) with (Some magic).
    cbn [ret bind print app]. rewrite Hne. reflexivity. }
  split; [exact Hc|]. intros original.
  pose proof (report_positions_log original (magic :: rest)) as Hlog.
  unfold reconstruct_firmware.
  destruct (report_positions original (magic :: rest)) as [lp [[]| |e]];
    cbn [bind]; rewrite ?Hc; unfold out, res in *; cbn [fst snd] in *.
  - rewrite reported_checksum_app, descriptors_app.
    rewrite (reported_checksum_position _ Hlog), (descriptors_position _ Hlog).
    repeat split; [discriminate].
  - rewrite (reported_checksum_position _ Hlog), (descriptors_position _ Hlog).
    repeat split; discriminate.
  - rewrite (reported_checksum_position _ Hlog), (descriptors_position _ Hlog).
    repeat split; discriminate.
Qed.

Lemma bad_magic_aborts_witness :
  Byte.x00 <> Byte.xe9 /\
  calculate_expected_checksum (Byte.x00 :: skipn 1 scenario_A) =
    ([PCalculatingBanner; PErrorBadMagic], Returned).
Proof.
  assert (H : Byte.x00 <> Byte.xe9) by discriminate.
  split; [exact H|].
  destruct (bad_magic_aborts Byte.x00 (skipn 1 scenario_A) H) as [E _]. exact E.
Defined.

(** C5. Resealing a well-formed image first overwrites the byte at
    trailer_start - 1 with the newly computed checksum and only then hashes
    the bytes [0, trailer_start) of the updated buffer, so the digest covers
    the new checksum byte; the digest replaces the last 32 bytes. The
    checksum written is the one the script reports for the image. *)
Theorem reseal_checksum_then_digest
    (hash : bytes -> bytes) (opaque ext : bytes) (segs : list Segment)
    (pad : bytes) (old_checksum : byte) (old_digest : bytes) :
  (forall x, length (hash x) = 32%nat) ->
  length opaque = 6%nat -> length ext = 16%nat ->
  (length segs < 256)%nat -> Forall segment_ok segs ->
  length old_digest = 32%nat ->
  let body := header (Z.of_nat (length segs)) opaque ext ++ encode_segments segs ++ pad in
  let img := image opaque ext segs (pad ++ old_checksum :: old_digest) in
  let c := byte.of_Z (compute_checksum segs) in
  img = body ++ old_checksum :: old_digest /\
  len body = trailer_start img - 1 /\
  write_byte img (trailer_start img - 1) c = body ++ c :: old_digest /\
  digest hash (body ++ c :: old_digest) = inr (hash (body ++ [c])) /\
  reseal hash img = inr ((body ++ [c]) ++ hash (body ++ [c])) /\
  reported_checksum (out (calculate_expected_checksum img)) = Some (byte.unsigned c).
Proof.
  intros Hhash Ho He Hlt Hok Hd body img c.
  pose proof (len_nonneg body) as Hb0.
  assert (Hd' : len old_digest = 32) by (unfold len; lia).
  assert (Himg : img = body ++ old_checksum :: old_digest).
  { unfold img, image, body. now rewrite <- !app_assoc. }
  assert (Hlen : len img = len body + 33).
  { rewrite Himg, len_app, len_cons. lia. }
  assert (Hts : len body = trailer_start img - 1).
  { unfold trailer_start. lia. }
  assert (Hbody : 24 <= len body).
  { unfold body. rewrite len_app, (len_header _ _ _ Ho He).
    pose proof (len_nonneg (encode_segments segs ++ pad)). lia. }
  assert (Hw : write_byte img (trailer_start img - 1) c = body ++ c :: old_digest).
  { unfold write_byte. rewrite <- Hts.
    destruct (Z.leb_spec 0 (len body)); [|lia].
    destruct (Z.ltb_spec (len body) (len img)); [|lia].
    cbn [andb]. rewrite Himg, firstn_len_app.
    replace (Z.to_nat (len body + 1)) with (Z.to_nat (len (body ++ [old_checksum])))
      by (rewrite len_app; reflexivity).
    change (body ++ old_checksum :: old_digest) with (body ++ [old_checksum] ++ old_digest).
    now rewrite app_assoc, skipn_len_app. }
  assert (Hlen' : len (body ++ c :: old_digest) = len body + 33).
  { rewrite len_app, len_cons. lia. }
  assert (Hdig : digest hash (body ++ c :: old_digest) = inr (hash (body ++ [c]))).
  { unfold digest, trailer_start. rewrite Hlen'.
    destruct (Z.ltb_spec (len body + 33) 32); [lia|].
    rewrite slice_inside by lia.
    replace (len body + 33 - 32 - 0) with (len (body ++ [c]))
      by (rewrite len_app; unfold len at 2; cbn [length]; lia).
    change (body ++ c :: old_digest) with (body ++ [c] ++ old_digest).
    cbn [Z.to_nat skipn]. now rewrite app_assoc, firstn_len_app. }
  repeat split; try assumption.
  - unfold reseal.
    assert (Hparse : parse_header img = inr (Z.of_nat (length segs))).
    { assert (Hshape : img = Byte.xe9 :: byte.of_Z (Z.of_nat (length segs)) ::
                (opaque ++ ext) ++ encode_segments segs ++ pad ++ old_checksum :: old_digest)
        by reflexivity.
      rewrite Hshape, parse_header_valid by (rewrite <- Hshape; lia).
      now rewrite count_byte. }
    rewrite Hparse, Nat2Z.id.
    assert (Hwalk : spec_walk img (length segs) 24 = inr segs).
    { unfold img, image. rewrite <- (len_header (Z.of_nat (length segs)) opaque ext Ho He).
      now apply spec_walk_encoded. }
    rewrite Hwalk. fold c. rewrite Hw, Hdig.
    unfold write_bytes. rewrite Hhash.
    replace (trailer_start img) with (len body + 1) by lia.
    change (body ++ c :: old_digest) with (body ++ [c] ++ old_digest).
    replace (Z.to_nat (len body + 1)) with (Z.to_nat (len (body ++ [c])))
      by (rewrite len_app; reflexivity).
    rewrite (app_assoc body), firstn_len_app.
    rewrite skipn_all2 by (unfold len; rewrite !length_app, Hd; cbn [length]; lia).
    now rewrite app_nil_r.
  - unfold c. rewrite compute_checksum_byte. now apply reported_checksum_image.
Qed.

Lemma reseal_checksum_then_digest_witness :
  let hash := fun x : bytes => firstn 32 (rev x ++ repeat Byte.x00 32) in
  (forall x, length (hash x) = 32%nat) /\
  hash (firstn 34 scenario_A ++ [Byte.x00]) <> hash (firstn 34 scenario_A ++ [Byte.xec]) /\
  reseal hash
    (image (repeat Byte.x00 6) (repeat Byte.x00 16) [segment_A]
       ([] ++ Byte.x00 :: repeat Byte.x00 32)) =
  inr (firstn 34 scenario_A ++ [Byte.xec] ++
       [Byte.xec; Byte.x02; Byte.x01; Byte.x00; Byte.x00; Byte.x00; Byte.x02] ++
       repeat Byte.x00 25).
Proof.
  intros hash.
  assert (Hh : forall x, length (hash x) = 32%nat).
  { intros x. unfold hash. rewrite length_firstn, length_app, repeat_length. lia. }
  split; [exact Hh|]. split; [vm_compute; discriminate|].
  destruct (reseal_checksum_then_digest hash (repeat Byte.x00 6) (repeat Byte.x00 16)
              [segment_A] [] Byte.x00 (repeat Byte.x00 32) Hh)
    as (_ & _ & _ & _ & E & _);
    [reflexivity | reflexivity | cbn; lia | repeat constructor; cbn; lia | reflexivity |].
  rewrite E. reflexivity.
Defined.

(** C6. Scenario A: magic 0xE9, segment count 1, any six and any sixteen
    opaque header bytes, one record with load address 0, data length 2 and
    data 01 02, followed by anything: the checksum is 0xEC, and a run of the
    whole script that gets through its position report prints it. *)
Theorem scenario_A_checksum (opaque ext rest : bytes) :
  length opaque = 6%nat -> length ext = 16%nat ->
  let modified :=
    [Byte.xe9; Byte.x01] ++ opaque ++ ext ++
    [Byte.x00; Byte.x00; Byte.x00; Byte.x00; Byte.x02; Byte.x00; Byte.x00; Byte.x00;
     Byte.x01; Byte.x02] ++ rest in
  walk_segments modified 1 =
    ([PSegment 0 0 2], Next {| offset := 34; checksum := 0xEC; total_data_bytes := 2 |}) /\
  res (calculate_expected_checksum modified) = Next tt /\
  reported_checksum (out (calculate_expected_checksum modified)) = Some 0xEC /\
  Z.lxor (Z.lxor 0xEF 0x01) 0x02 = 0xEC /\
  (forall original,
     33 <= len original -> len original - 33 < len modified ->
     res (reconstruct_firmware original modified) = Next tt /\
     reported_checksum (out (reconstruct_firmware original modified)) = Some 0xEC).
Proof.
  intros Ho He modified.
  set (segs := [ {| load_address := 0; data := [Byte.x01; Byte.x02] |} ]).
  assert (Hok : Forall segment_ok segs).
  { repeat constructor; cbn; lia. }
  assert (Himg : modified = image opaque ext segs rest).
  { unfold modified, image, header. cbn [app]. now rewrite <- app_assoc. }
  assert (Hlt : (length segs < 256)%nat) by (cbn; lia).
  assert (Hres : res (calculate_expected_checksum modified) = Next tt).
  { rewrite Himg.
    destruct (calculate_image opaque ext segs rest Ho He Hlt Hok) as (found & _ & ->).
    reflexivity. }
  assert (Hsum : reported_checksum (out (calculate_expected_checksum modified)) = Some 0xEC).
  { rewrite Himg. exact (reported_checksum_image opaque ext segs rest Ho He Hlt Hok). }
  split; [|split; [|split; [|split]]].
  - rewrite Himg. exact (walk_image opaque ext segs rest Ho He Hok).
  - exact Hres.
  - exact Hsum.
  - reflexivity.
  - intros original H33 Hpos.
    assert (H17 : 17 <= len modified).
    { rewrite Himg. unfold image. rewrite len_app, (len_header _ _ _ Ho He).
      pose proof (len_nonneg (encode_segments segs ++ rest)). lia. }
    destruct (reconstruct_after_report original modified
                (report_positions_completes original modified H33 Hpos H17))
      as (lp & Flp & ->).
    unfold res, out in *; cbn [fst snd]. split; [exact Hres|].
    rewrite reported_checksum_app, (reported_checksum_position _ Flp). exact Hsum.
Qed.

Lemma scenario_A_checksum_witness :
  length (repeat Byte.x00 6) = 6%nat /\ length (repeat Byte.x00 16) = 16%nat /\
  res (calculate_expected_checksum scenario_A) = Next tt /\
  reported_checksum (out (calculate_expected_checksum scenario_A)) = Some 0xEC.
Proof.
  split; [reflexivity|]. split; [reflexivity|].
  destruct (scenario_A_checksum (repeat Byte.x00 6) (repeat Byte.x00 16)
              (Byte.xec :: scenario_A_trailer) eq_refl eq_refl) as (_ & R & E & _ & _).
  split; [exact R | exact E].
Defined.

(** C7. With the magic byte in place and a segment count of 0 the loop
    body never runs and the reported checksum is the seed 0xEF. *)
Theorem zero_segments_checksum_is_seed (rest : bytes) :
  walk_segments (Byte.xe9 :: Byte.x00 :: rest) 0 =
    ([], Next {| offset := 24; checksum := 0xEF; total_data_bytes := 0 |}) /\
  exists found,
    Forall is_found found /\
    calculate_expected_checksum (Byte.xe9 :: Byte.x00 :: rest) =
    ([PCalculatingBanner; PSegmentCount 0; PTotalDataBytes 0; PExpectedChecksum 0xEF;
      PBlank; PSearchingBanner 0xEF] ++ found,
     Next tt).
Proof.
  split; [reflexivity|].
  destruct (calculate_completes Byte.x00 rest [] _ eq_refl) as (found & Ff & Ec).
  exists found. split; [exact Ff | exact Ec].
Qed.

(** C8. The checksum the script computes for an image does not depend on
    the order of its segments: an image holding a permutation of the same
    segments gets the same checksum, and that checksum is the seed XORed
    with the per-segment partial folds combined in any order. *)
Theorem checksum_order_independent (opaque ext rest rest' : bytes) (segs segs' : list Segment) :
  length opaque = 6%nat -> length ext = 16%nat ->
  (length segs < 256)%nat -> Forall segment_ok segs ->
  Permutation segs segs' ->
  reported_checksum (out (calculate_expected_checksum (image opaque ext segs rest))) =
    Some (xor_fold 0xEF (concat (map data segs))) /\
  reported_checksum (out (calculate_expected_checksum (image opaque ext segs' rest'))) =
    Some (xor_fold 0xEF (concat (map data segs))) /\
  xor_fold 0xEF (concat (map data segs)) =
    Z.lxor 0xEF (fold_right Z.lxor 0 (map partial_checksum segs')).
Proof.
  intros Ho He Hlt Hok Hp.
  assert (Hlt' : (length segs' < 256)%nat).
  { now rewrite <- (Permutation_length Hp). }
  assert (Hok' : Forall segment_ok segs').
  { rewrite Forall_forall in *. intros s Hs. apply Hok.
    now apply (Permutation_in _ (Permutation_sym Hp)). }
  rewrite <- fold_segments_concat.
  change (fold_segments 239 segs) with (compute_checksum segs).
  split; [|split].
  - now apply reported_checksum_image.
  - rewrite (compute_checksum_perm _ _ Hp). now apply reported_checksum_image.
  - rewrite (compute_checksum_perm _ _ Hp). apply fold_segments_partials.
Qed.

Lemma checksum_order_independent_witness :
  Permutation [segment_A; segment_B] [segment_B; segment_A] /\
  reported_checksum (out (calculate_expected_checksum
    (image (repeat Byte.x00 6) (repeat Byte.x00 16) [segment_B; segment_A] []))) =
  Some 0x13.
Proof.
  assert (Hp : Permutation [segment_A; segment_B] [segment_B; segment_A]) by apply perm_swap.
  split; [exact Hp|].
  destruct (checksum_order_independent (repeat Byte.x00 6) (repeat Byte.x00 16) [] []
              [segment_A; segment_B] [segment_B; segment_A])
    as (_ & E & _);
    [reflexivity | reflexivity | cbn; lia | repeat constructor; cbn; lia | exact Hp |].
  exact E.
Defined.



(** C10. The descriptors and the checksum that a run reports are a function
    of the bytes of the modified file alone: two runs on the same modified
    file that both reach the calculation report the same descriptors and the
    same checksum and end the same way, whatever the original files are. *)
Theorem calculation_depends_on_modified_only (original1 original2 modified : bytes) :
  In PCalculatingBanner (out (reconstruct_firmware original1 modified)) ->
  In PCalculatingBanner (out (reconstruct_firmware original2 modified)) ->
  descriptors (out (reconstruct_firmware original1 modified)) =
    descriptors (out (reconstruct_firmware original2 modified)) /\
  reported_checksum (out (reconstruct_firmware original1 modified)) =
    reported_checksum (out (reconstruct_firmware original2 modified)) /\
  res (reconstruct_firmware original1 modified) =
    res (reconstruct_firmware original2 modified) /\
  descriptors (out (reconstruct_firmware original1 modified)) =
    descriptors (out (calculate_expected_checksum modified)) /\
  reported_checksum (out (reconstruct_firmware original1 modified)) =
    reported_checksum (out (calculate_expected_checksum modified)).
Proof.
  intros H1 H2.
  destruct (reconstruct_reaches_calculation _ _ H1) as (lp1 & F1 & ->).
  destruct (reconstruct_reaches_calculation _ _ H2) as (lp2 & F2 & ->).
  unfold out, res; cbn [fst snd].
  rewrite !descriptors_app, !reported_checksum_app.
  rewrite (descriptors_position _ F1), (descriptors_position _ F2).
  rewrite (reported_checksum_position _ F1), (reported_checksum_position _ F2).
  repeat split.
Qed.

Lemma calculation_depends_on_modified_only_witness :
  In PCalculatingBanner (out (reconstruct_firmware scenario_A scenario_A)) /\
  In PCalculatingBanner (out (reconstruct_firmware (repeat Byte.x00 40) scenario_A)) /\
  reported_checksum (out (reconstruct_firmware scenario_A scenario_A)) =
  reported_checksum (out (reconstruct_firmware (repeat Byte.x00 40) scenario_A)).
Proof.
  assert (H1 : In PCalculatingBanner (out (reconstruct_firmware scenario_A scenario_A))).
  { vm_compute. repeat (first [left; reflexivity | right]). }
  assert (H2 : In PCalculatingBanner
                 (out (reconstruct_firmware (repeat Byte.x00 40) scenario_A))).
  { vm_compute. repeat (first [left; reflexivity | right]). }
  split; [exact H1|]. split; [exact H2|].
  destruct (calculation_depends_on_modified_only _ _ _ H1 H2) as (_ & E & _). exact E.
Defined.

(** ** Further properties of the script *)

(** *** The position report *)

(** X1. When the original file is shorter than 33 bytes, [imageData_end] is
    never assigned: the script prints the two sizes and a blank line and
    stops with UnboundLocalError at line 30, whatever the modified file is. *)
Theorem short_original_unbound_local (original modified : bytes) :
  len original < 33 ->
  reconstruct_firmware original modified =
    ([POriginalSize (len original); PModifiedSize (len modified); PBlank],
     Raised UnboundLocalError).
Proof.
  intros H. unfold reconstruct_firmware, report_positions, local, print, raise, ret.
  destruct (Z.leb_spec 33 (len original)); [lia|]. reflexivity.
Qed.

Lemma short_original_unbound_local_witness :
  len (repeat Byte.xe9 32) < 33 /\
  reconstruct_firmware (repeat Byte.xe9 32) scenario_A =
    ([POriginalSize 32; PModifiedSize 67; PBlank], Raised UnboundLocalError).
Proof.
  assert (H : len (repeat Byte.xe9 32) < 33) by reflexivity.
  split; [exact H|]. exact (short_original_unbound_local _ scenario_A H).
Defined.

(** X2. When the modified file ends at or before the checksum position of
    the original (it is at least 33 bytes shorter), the script prints the
    sizes, the image data range, the checksum position and the original's
    checksum byte, and stops with IndexError at line 25: nothing is
    calculated. *)
Theorem short_modified_index_error (original modified : bytes) :
  33 <= len original -> len modified <= len original - 33 ->
  exists co,
    getitem original (len original - 33) = Some co /\
    reconstruct_firmware original modified =
      ([POriginalSize (len original); PModifiedSize (len modified); PBlank;
        PImageData (len original - 32); PChecksumPosition (len original - 33);
        POriginalByte co],
       Raised IndexError).
Proof.
  intros H1 H2.
  destruct (getitem_in_range original (len original - 33)) as [co E1]; [lia|].
  exists co. split; [exact E1|].
  assert (E2 : getitem modified (len original - 33) = None)
    by (apply getitem_past_end; lia).
  assert (Hs : len original - 32 - 1 = len original - 33) by lia.
  unfold reconstruct_firmware, report_positions, index, local, print, raise, ret.
  destruct (Z.leb_spec 33 (len original)); [|lia].
  repeat (cbn [bind app]; rewrite ?Hs, ?E1, ?E2).
  reflexivity.
Qed.

Lemma short_modified_index_error_witness :
  33 <= len scenario_A /\ len (firstn 24 scenario_A) <= len scenario_A - 33 /\
  reconstruct_firmware scenario_A (firstn 24 scenario_A) =
    ([POriginalSize 67; PModifiedSize 24; PBlank; PImageData 35; PChecksumPosition 34;
      POriginalByte Byte.xec],
     Raised IndexError).
Proof.
  assert (H1 : 33 <= len scenario_A) by (vm_compute; discriminate).
  assert (H2 : len (firstn 24 scenario_A) <= len scenario_A - 33)
    by (vm_compute; discriminate).
  split; [exact H1|]. split; [exact H2|].
  destruct (short_modified_index_error _ _ H1 H2) as (co & E & R).
  rewrite R. vm_compute in E. inversion E; subst co. reflexivity.
Defined.

(** [modified[len(modified) - 33]] under Python's indexing: the byte 33
    from the end, or, in a file of 17 to 32 bytes, the byte the negative
    index wraps to. *)
Lemma getitem_minus_33 (modified : bytes) :
  17 <= len modified ->
  exists v,
    getitem modified (len modified - 33) = Some v /\
    nth_error modified
      (Z.to_nat (if 33 <=? len modified then len modified - 33
                 else 2 * len modified - 33)) = Some v.
Proof.
  intros H. destruct (Z.leb_spec 33 (len modified)).
  - destruct (getitem_in_range modified (len modified - 33)) as [v E]; [lia|].
    exists v. split; [exact E|]. now rewrite <- getitem_nat by lia.
  - unfold getitem. destruct (Z.ltb_spec (len modified - 33) 0); [|lia].
    destruct (Z.leb_spec 0 (len modified + (len modified - 33))); [|lia].
    replace (len modified + (len modified - 33)) with (2 * len modified - 33) by lia.
    destruct (nth_error modified (Z.to_nat (2 * len modified - 33))) as [v|] eqn:E;
      [now exists v|].
    apply nth_error_None in E. unfold len in *. lia.
Qed.

Lemma getitem_minus_33_none (modified : bytes) :
  len modified < 17 -> getitem modified (len modified - 33) = None.
Proof.
  intros H. pose proof (len_nonneg modified). unfold getitem.
  destruct (Z.ltb_spec (len modified - 33) 0); [|lia].
  destruct (Z.leb_spec 0 (len modified + (len modified - 33))); [lia|reflexivity].
Qed.

(** X3. The position report in full, for files of any two lengths on which
    it completes. The script reads the modified file at the original's
    checksum position [len(original) - 33] and at its own "byte -33"
    [len(modified) - 33]; the two positions differ by the difference of the
    file lengths. In a modified file of 17 to 32 bytes the second position
    is negative and Python's indexing wraps it: the byte printed for it is
    the one at offset [2 * len(modified) - 33]. *)
Theorem report_positions_full (original modified : bytes) :
  33 <= len original -> len original - 33 < len modified -> 17 <= len modified ->
  exists co c1 c2 last,
    nth_error original (Z.to_nat (len original - 33)) = Some co /\
    nth_error modified (Z.to_nat (len original - 33)) = Some c1 /\
    nth_error modified
      (Z.to_nat (if 33 <=? len modified then len modified - 33
                 else 2 * len modified - 33)) = Some c2 /\
    nth_error modified (Z.to_nat (len modified - 1)) = Some last /\
    report_positions original modified =
      ([POriginalSize (len original); PModifiedSize (len modified); PBlank;
        PImageData (len original - 32);
        PChecksumPosition (len original - 33);
        POriginalByte co; PModifiedByte c1; PBlank;
        PDataBeforeChecksum (len original - 33); PBlank;
        PAfterChecksumBanner; PRebuiltLength (len original - 33 + 1);
        PChecksumWouldBeAt (len original - 33);
        PChecksumInModified (len original - 33) c1; PBlank;
        PAfterSHABanner; PFinalLength (len original - 33 + 1 + 32);
        PChecksumFinalPosition (len original - 33);
        PMinus33Position (len modified - 33);
        PMinus33Byte (len modified - 33) c2; PBlank;
        PPositionsBanner; PAtCalculated (len original - 33) c1;
        PAtMinus33 (len modified - 33) c2; PAtLast (len modified - 1) last; PBlank],
       Next tt).
Proof.
  intros H1 H2 H3.
  destruct (getitem_in_range original (len original - 33)) as [co E1]; [lia|].
  destruct (getitem_in_range modified (len original - 33)) as [c1 E2]; [lia|].
  destruct (getitem_minus_33 modified H3) as (c2 & E3 & N3).
  destruct (getitem_in_range modified (len modified - 1)) as [last E4]; [lia|].
  exists co, c1, c2, last.
  repeat split.
  - now rewrite <- getitem_nat by lia.
  - now rewrite <- getitem_nat by lia.
  - exact N3.
  - now rewrite <- getitem_nat by lia.
  - assert (Hs : len original - 32 - 1 = len original - 33) by lia.
    unfold report_positions, index, local, print, raise, ret.
    destruct (Z.leb_spec 33 (len original)); [|lia].
    repeat (cbn [bind app]; rewrite ?Hs, ?E1, ?E2, ?E3, ?E4).
    reflexivity.
Qed.

Lemma report_positions_full_witness :
  33 <= len (firstn 40 scenario_A) /\
  len (firstn 40 scenario_A) - 33 < len (firstn 24 scenario_A) /\
  17 <= len (firstn 24 scenario_A) /\
  In (PAtMinus33 (-9) Byte.x00)
     (out (report_positions (firstn 40 scenario_A) (firstn 24 scenario_A))).
Proof.
  assert (H1 : 33 <= len (firstn 40 scenario_A)) by (vm_compute; discriminate).
  assert (H2 : len (firstn 40 scenario_A) - 33 < len (firstn 24 scenario_A)) by reflexivity.
  assert (H3 : 17 <= len (firstn 24 scenario_A)) by (vm_compute; discriminate).
  split; [exact H1|]. split; [exact H2|]. split; [exact H3|].
  destruct (report_positions_full _ _ H1 H2 H3) as (co & c1 & c2 & last & _ & _ & N & _ & R).
  rewrite R. vm_compute in N. inversion N; subst c2.
  unfold out; cbn [fst]. vm_compute. repeat (first [left; reflexivity | right]).
Defined.

(** When the position report completes. *)
Lemma report_positions_outcome (original modified : bytes) :
  (res (report_positions original modified) = Next tt <->
   33 <= len original /\ len original - 33 < len modified /\ 17 <= len modified) /\
  res (report_positions original modified) <> Returned.
Proof.
  assert (Hs : len original - 32 - 1 = len original - 33) by lia.
  destruct (Z.lt_ge_cases (len original) 33) as [Ho|Ho].
  { unfold report_positions, index, local, print, raise, ret.
    destruct (Z.leb_spec 33 (len original)); [lia|].
    unfold res; cbn [bind app snd].
    split; [split; [discriminate | lia] | discriminate]. }
  destruct (Z.le_gt_cases (len modified) (len original - 33)) as [Hm|Hm].
  { destruct (getitem_in_range original (len original - 33)) as [co E1]; [lia|].
    assert (E2 : getitem modified (len original - 33) = None)
      by (apply getitem_past_end; lia).
    unfold report_positions, index, local, print, raise, ret.
    destruct (Z.leb_spec 33 (len original)); [|lia].
    repeat (cbn [bind app]; rewrite ?Hs, ?E1, ?E2).
    unfold res; cbn [snd]. split; [split; [discriminate | lia] | discriminate]. }
  destruct (Z.lt_ge_cases (len modified) 17) as [H17|H17].
  { destruct (getitem_in_range original (len original - 33)) as [co E1]; [lia|].
    destruct (getitem_in_range modified (len original - 33)) as [c1 E2]; [lia|].
    pose proof (getitem_minus_33_none modified H17) as E3.
    unfold report_positions, index, local, print, raise, ret.
    destruct (Z.leb_spec 33 (len original)); [|lia].
    repeat (cbn [bind app]; rewrite ?Hs, ?E1, ?E2, ?E3).
    unfold res; cbn [snd]. split; [split; [discriminate | lia] | discriminate]. }
  rewrite (report_positions_completes original modified) by lia.
  split; [split; [intros _; lia | reflexivity] | discriminate].
Qed.

(** X4. The position report completes exactly when the original file has
    at least 33 bytes, the modified file reaches the original's checksum
    position, and the modified file has at least 17 bytes (so that index
    [len(modified) - 33] exists, directly or wrapped). In every other case
    it raises; it never executes [return]. *)
Theorem report_positions_completes_iff (original modified : bytes) :
  (res (report_positions original modified) = Next tt <->
   33 <= len original /\ len original - 33 < len modified /\ 17 <= len modified) /\
  res (report_positions original modified) <> Returned.
Proof. exact (report_positions_outcome original modified). Qed.

Lemma report_positions_completes_iff_witness :
  (33 <= len scenario_A /\ len scenario_A - 33 < len scenario_A /\ 17 <= len scenario_A) /\
  res (report_positions scenario_A scenario_A) = Next tt.
Proof.
  assert (H : 33 <= len scenario_A /\ len scenario_A - 33 < len scenario_A /\
              17 <= len scenario_A).
  { repeat split; vm_compute; congruence. }
  split; [exact H|].
  destruct (report_positions_completes_iff scenario_A scenario_A) as [[_ Hc] _].
  exact (Hc H).
Defined.

(** *** The segment walk on any buffer *)

(** A slice that starts at or after the end of the buffer is empty. *)
Lemma slice_past_end (b : bytes) lo hi : len b <= lo -> 0 <= hi -> slice b lo hi = [].
Proof.
  intros H1 H2. pose proof (len_nonneg b). unfold slice, slice_bound.
  destruct (Z.ltb_spec lo 0), (Z.ltb_spec hi 0); try lia.
  rewrite (Z.min_r lo) by lia.
  replace (Z.to_nat (Z.min hi (len b) - len b)) with 0%nat by lia.
  reflexivity.
Qed.

(** A slice between non-negative bounds is no longer than their distance. *)
Lemma slice_length_le (b : bytes) lo hi :
  0 <= lo <= hi -> len (slice b lo hi) <= hi - lo.
Proof.
  intros H. pose proof (len_nonneg b). unfold slice, slice_bound, len.
  destruct (Z.ltb_spec lo 0), (Z.ltb_spec hi 0); try lia.
  rewrite length_firstn. lia.
Qed.

(** A field decoded from at most four bytes fits in 32 bits. *)
Lemma field_32_bits (b : bytes) lo :
  0 <= lo -> 0 <= le_combine (slice b lo (lo + 4)) < 2 ^ 32.
Proof.
  intros H. pose proof (le_combine_bound (slice b lo (lo + 4))) as [H0 H1].
  split; [exact H0|].
  eapply Z.lt_le_trans; [exact H1|].
  apply Z.pow_le_mono_r; [lia|].
  pose proof (slice_length_le b lo (lo + 4)). unfold len in *. lia.
Qed.

(** The loop of the script on any buffer, iteration by iteration: it
    completes when [declared_in_range] holds and raises IndexError
    otherwise. *)
Lemma walk_outcome modified : forall n i w,
  0 <= offset w ->
  if declared_in_range modified n (offset w)
  then exists log w', for_loop n i (segment_body modified) w = (log, Next w')
  else exists log, for_loop n i (segment_body modified) w = (log, Raised IndexError).
Proof.
  induction n as [|n IH]; intros i w Hoff; cbn [declared_in_range for_loop].
  - now exists [], w.
  - set (n0 := le_combine (slice modified (offset w + 4) (offset w + 8))).
    assert (Hn0 : 0 <= n0) by apply le_combine_nonneg.
    destruct (Z.eqb_spec n0 0) as [Hz|Hnz];
      [|destruct (Z.leb_spec (offset w + 8 + n0) (len modified)) as [Hin|Hout]];
      cbn [orb andb].
    + rewrite segment_body_inside by (try fold n0; auto).
      fold n0. cbn [bind].
      match goal with
      | |- context [for_loop n (i + 1) (segment_body modified) ?w1] =>
          specialize (IH (i + 1) w1 ltac:(cbn [offset]; lia)); cbn [offset] in IH;
          destruct (declared_in_range modified n (offset w + 8 + n0));
          [destruct IH as (l & w' & ->) | destruct IH as (l & ->)]
      end; eauto.
    + rewrite segment_body_inside by (try fold n0; auto).
      fold n0. cbn [bind].
      match goal with
      | |- context [for_loop n (i + 1) (segment_body modified) ?w1] =>
          specialize (IH (i + 1) w1 ltac:(cbn [offset]; lia)); cbn [offset] in IH;
          destruct (declared_in_range modified n (offset w + 8 + n0));
          [destruct IH as (l & w' & ->) | destruct IH as (l & ->)]
      end; eauto.
    + rewrite segment_body_past_end by (try fold n0; lia). cbn [bind]. eauto.
Qed.

(** Every descriptor printed by the loop, whether it completes or not, has
    an index in [[i, i + n)] and two fields that fit in 32 bits. *)
Lemma walk_descriptor_bounds modified : forall n i w,
  0 <= offset w ->
  forall k a d, In (PSegment k a d) (out (for_loop n i (segment_body modified) w)) ->
  i <= k < i + Z.of_nat n /\ 0 <= a < 2 ^ 32 /\ 0 <= d < 2 ^ 32.
Proof.
  induction n as [|n IH]; intros i w Hoff k a d Hin; cbn [for_loop] in Hin.
  - destruct Hin.
  - set (n0 := le_combine (slice modified (offset w + 4) (offset w + 8))) in *.
    assert (Hn0 : 0 <= n0 < 2 ^ 32).
    { unfold n0. replace (offset w + 8) with (offset w + 4 + 4) by lia.
      apply field_32_bits. lia. }
    assert (Ha0 : 0 <= le_combine (slice modified (offset w) (offset w + 4)) < 2 ^ 32)
      by (apply field_32_bits; lia).
    assert (Hcase : (n0 = 0 \/ offset w + 8 + n0 <= len modified) \/
                    (0 < n0 /\ len modified < offset w + 8 + n0)) by lia.
    destruct Hcase as [Hc|[Hp Ho]].
    + rewrite segment_body_inside in Hin by (try fold n0; assumption).
      fold n0 in Hin. cbn [bind] in Hin.
      match type of Hin with
      | context [for_loop n (i + 1) (segment_body modified) ?w1] =>
          specialize (IH (i + 1) w1 ltac:(cbn [offset]; lia) k a d);
          destruct (for_loop n (i + 1) (segment_body modified) w1) as [l1 r1]
      end.
      unfold out in *; cbn [fst app] in *.
      destruct Hin as [E|Hin].
      * inversion E; subst. lia.
      * specialize (IH Hin). lia.
    + rewrite segment_body_past_end in Hin by (try fold n0; assumption).
      unfold out in Hin; cbn [bind fst] in Hin.
      destruct Hin as [E|[]]. inversion E; subst. lia.
Qed.

(** The outcome of the calculation on a file with the magic byte and a
    segment count. *)
Lemma calculate_valid_magic_outcome (count : byte) (rest : bytes) :
  let modified := Byte.xe9 :: count :: rest in
  let n := Z.to_nat (byte.unsigned count) in
  res (calculate_expected_checksum modified) =
    (if declared_in_range modified n 24 then Next tt else Raised IndexError) /\
  reported_checksum (out (calculate_expected_checksum modified)) =
    (if declared_in_range modified n 24
     then Some (xor_fold 0xEF (concat (declared_payloads modified n 24)))
     else None).
Proof.
  intros modified n.
  pose proof (walk_outcome modified n 0
                {| offset := 24; checksum := 239; total_data_bytes := 0 |}
                ltac:(cbn [offset]; lia)) as Hout.
  cbn [offset] in Hout.
  pose proof (walk_reports_no_checksum modified n 0
                {| offset := 24; checksum := 239; total_data_bytes := 0 |}) as Hsil.
  destruct (declared_in_range modified n 24).
  - destruct Hout as (log & w & Hw).
    rewrite Hw in Hsil. unfold out in Hsil; cbn [fst] in Hsil.
    pose proof (walk_folds_declared modified n 0
                  {| offset := 24; checksum := 239; total_data_bytes := 0 |} log w
                  ltac:(cbn [offset]; lia) Hw) as Hsum.
    cbn [offset checksum] in Hsum.
    destruct (calculate_completes count rest log w Hw) as (found & _ & Ec).
    fold modified in Ec. rewrite Ec. unfold res, out; cbn [fst snd reported_checksum].
    split; [reflexivity|].
    now rewrite reported_checksum_app, Hsil, Hsum.
  - destruct Hout as (log & Hw).
    rewrite Hw in Hsil. unfold out in Hsil; cbn [fst] in Hsil.
    pose proof (calculate_raises count rest log IndexError Hw) as Ec.
    fold modified in Ec. rewrite Ec. unfold res, out; cbn [fst snd reported_checksum].
    split; [reflexivity | exact Hsil].
Qed.

(** X5. On a file that starts with 0xE9 and has a segment-count byte, the
    calculation either completes or raises IndexError, and which of the two
    is decided by [declared_in_range]: it completes exactly when the data
    of every declared record is empty or ends inside the file. When it
    completes, the checksum it reports is the seed folded over the declared
    payloads; when it raises, no checksum is reported. *)
Theorem calculation_outcome (count : byte) (rest : bytes) :
  let modified := Byte.xe9 :: count :: rest in
  let n := Z.to_nat (byte.unsigned count) in
  res (calculate_expected_checksum modified) =
    (if declared_in_range modified n 24 then Next tt else Raised IndexError) /\
  reported_checksum (out (calculate_expected_checksum modified)) =
    (if declared_in_range modified n 24
     then Some (xor_fold 0xEF (concat (declared_payloads modified n 24)))
     else None).
Proof. exact (calculate_valid_magic_outcome count rest). Qed.

(** X6. The checksum is one byte on every buffer: whenever the segment
    loop completes, for any segment count, the value it has accumulated
    lies in 0 .. 255. *)
Theorem walk_checksum_is_byte (modified : bytes) (segment_count : Z) (log : list line) (w : walk) :
  walk_segments modified segment_count = (log, Next w) ->
  0 <= checksum w < 256.
Proof.
  intros Hw. unfold walk_segments, for_range in Hw.
  rewrite (walk_folds_declared modified _ 0
             {| offset := 24; checksum := 239; total_data_bytes := 0 |} log w
             ltac:(cbn [offset]; lia) Hw).
  apply (xor_fold_byte_range _ 239). cbn; lia.
Qed.

Lemma walk_checksum_is_byte_witness :
  walk_segments scenario_A 1 =
    ([PSegment 0 0 2], Next {| offset := 34; checksum := 0xEC; total_data_bytes := 2 |}) /\
  0 <= 0xEC < 256.
Proof.
  assert (H : walk_segments scenario_A 1 =
    ([PSegment 0 0 2], Next {| offset := 34; checksum := 0xEC; total_data_bytes := 2 |}))
    by reflexivity.
  split; [exact H|]. exact (walk_checksum_is_byte _ _ _ _ H).
Defined.

(** X7. Every descriptor the script prints, on any file and whether or not
    the walk completes, carries an index below the segment count and a load
    address and a data length that fit in 32 bits. *)
Theorem descriptor_fields_bounded (modified : bytes) (segment_count i a d : Z) :
  In (PSegment i a d) (out (walk_segments modified segment_count)) ->
  0 <= i < segment_count /\ 0 <= a < 2 ^ 32 /\ 0 <= d < 2 ^ 32.
Proof.
  intros Hin. unfold walk_segments, for_range in Hin.
  apply walk_descriptor_bounds in Hin; [|cbn [offset]; lia].
  lia.
Qed.

Lemma descriptor_fields_bounded_witness :
  In (PSegment 0 0 2) (out (walk_segments scenario_A 1)) /\
  (0 <= 0 < 1 /\ 0 <= 0 < 2 ^ 32 /\ 0 <= 2 < 2 ^ 32).
Proof.
  assert (H : In (PSegment 0 0 2) (out (walk_segments scenario_A 1)))
    by (left; reflexivity).
  split; [exact H|]. exact (descriptor_fields_bounded _ _ _ _ _ H).
Defined.

(** The segment loop prints descriptors and nothing else. *)
Lemma walk_prints_descriptors_only modified : forall n i w x,
  In x (out (for_loop n i (segment_body modified) w)) -> exists k a d, x = PSegment k a d.
Proof.
  induction n as [|n IH]; intros i w x Hin; cbn [for_loop] in Hin; [destruct Hin|].
  unfold segment_body at 1, for_range, print in Hin. cbn [bind] in Hin.
  match type of Hin with
  | context [for_loop ?k 0 (xor_data_byte modified ?o) ?c] =>
      pose proof (xor_loop_silent modified o k 0 c) as Hs;
      destruct (for_loop k 0 (xor_data_byte modified o) c) as [l1 [c1| |e1]]
  end; unfold out in Hs; cbn [fst] in Hs; subst l1; cbn [bind ret app] in Hin.
  - match type of Hin with
    | context [for_loop n (i + 1) (segment_body modified) ?w1] =>
        specialize (IH (i + 1) w1 x);
        destruct (for_loop n (i + 1) (segment_body modified) w1) as [l2 r2]
    end.
    unfold out in *; cbn [fst] in *. destruct Hin as [E|Hin]; [eauto | auto].
  - unfold out in Hin; cbn [fst] in Hin. destruct Hin as [E|[]]; eauto.
  - unfold out in Hin; cbn [fst] in Hin. destruct Hin as [E|[]]; eauto.
Qed.

(** Once the cursor is at or past the end of the buffer, every further
    record is sliced as empty and decodes to load address 0 and data length
    0: the loop completes, the checksum is untouched and the cursor moves
    on by 8 per record. *)
Lemma walk_past_end modified : forall n i w,
  len modified <= offset w ->
  exists log,
    for_loop n i (segment_body modified) w =
      (log, Next {| offset := offset w + 8 * Z.of_nat n;
                    checksum := checksum w;
                    total_data_bytes := total_data_bytes w |}) /\
    descriptors log = repeat (0, 0) n.
Proof.
  induction n as [|n IH]; intros i w Hoff.
  - exists []. cbn [for_loop repeat descriptors]. split; [|reflexivity].
    unfold ret. rewrite Z.mul_0_r, Z.add_0_r. now destruct w.
  - pose proof (len_nonneg modified).
    cbn [for_loop].
    assert (E4 : slice modified (offset w + 4) (offset w + 8) = [])
      by (apply slice_past_end; lia).
    assert (E0 : slice modified (offset w) (offset w + 4) = [])
      by (apply slice_past_end; lia).
    rewrite segment_body_inside by (rewrite ?E4; cbn [le_combine]; auto; lia).
    rewrite E4, E0. cbn [le_combine bind].
    rewrite !Z.add_0_r, slice_empty by lia. cbn [xor_fold fold_left].
    destruct (IH (i + 1) {| offset := offset w + 8; checksum := checksum w;
                            total_data_bytes := total_data_bytes w |})
      as (log & -> & Hd); [cbn [offset]; lia|].
    exists (PSegment i 0 0 :: log). cbn [app offset checksum total_data_bytes].
    split.
    + do 3 f_equal. lia.
    + cbn [descriptors repeat]. now rewrite Hd.
Qed.

(** X8. A file of at most 24 bytes that starts with 0xE9 is accepted with
    any segment count: every declared record is read as load address 0 and
    data length 0, the calculation completes, and the checksum reported is
    the seed 0xEF. *)
Theorem header_only_file_accepted (count : byte) (rest : bytes) :
  let modified := Byte.xe9 :: count :: rest in
  len modified <= 24 ->
  res (calculate_expected_checksum modified) = Next tt /\
  reported_checksum (out (calculate_expected_checksum modified)) = Some 0xEF /\
  descriptors (out (calculate_expected_checksum modified)) =
    repeat (0, 0) (Z.to_nat (byte.unsigned count)).
Proof.
  intros modified Hlen.
  destruct (walk_past_end modified (Z.to_nat (byte.unsigned count)) 0
              {| offset := 24; checksum := 239; total_data_bytes := 0 |} Hlen)
    as (log & Hw & Hd).
  cbn [offset checksum total_data_bytes] in Hw.
  destruct (calculate_completes count rest log _ Hw) as (found & Ff & Ec).
  fold modified in Ec. rewrite Ec. unfold res, out; cbn [fst snd].
  pose proof (walk_reports_no_checksum modified (Z.to_nat (byte.unsigned count)) 0
                {| offset := 24; checksum := 239; total_data_bytes := 0 |}) as Hsil.
  rewrite Hw in Hsil. unfold out in Hsil; cbn [fst] in Hsil.
  split; [reflexivity|]. split.
  - cbn [reported_checksum]. now rewrite reported_checksum_app, Hsil.
  - cbn [descriptors]. rewrite descriptors_app. cbn [descriptors checksum].
    now rewrite (descriptors_found _ Ff), app_nil_r.
Qed.

Lemma header_only_file_accepted_witness :
  len (Byte.xe9 :: Byte.x03 :: repeat Byte.x00 22) <= 24 /\
  reported_checksum
    (out (calculate_expected_checksum (Byte.xe9 :: Byte.x03 :: repeat Byte.x00 22))) =
  Some 0xEF /\
  descriptors
    (out (calculate_expected_checksum (Byte.xe9 :: Byte.x03 :: repeat Byte.x00 22))) =
  [(0, 0); (0, 0); (0, 0)].
Proof.
  assert (H : len (Byte.xe9 :: Byte.x03 :: repeat Byte.x00 22) <= 24)
    by (vm_compute; discriminate).
  split; [exact H|].
  destruct (header_only_file_accepted Byte.x03 (repeat Byte.x00 22) H) as (_ & E & D).
  split; [exact E | exact D].
Defined.

(** *** The early return and the shortest files *)

(** X9. The calculation executes its early [return] exactly when the file
    is not empty and its first byte is not 0xE9. On an empty file, and on a
    file that is the single byte 0xE9, it prints its banner and stops with
    IndexError; and IndexError is the only exception it ever raises. *)
Theorem early_return_iff (modified : bytes) :
  (res (calculate_expected_checksum modified) = Returned <->
   exists magic rest, modified = magic :: rest /\ magic <> Byte.xe9) /\
  (modified = [] \/ modified = [Byte.xe9] ->
   calculate_expected_checksum modified = ([PCalculatingBanner], Raised IndexError)) /\
  (forall e, res (calculate_expected_checksum modified) = Raised e -> e = IndexError).
Proof.
  destruct modified as [|magic rest].
  { repeat split.
    - discriminate.
    - intros (m & r & E & _). discriminate.
    - intros e H. cbv in H. now inversion H. }
  destruct (Z.eq_dec (byte.unsigned magic) 233) as [Em|Em].
  - assert (magic = Byte.xe9) by (apply byte.unsigned_inj; exact Em). subst magic.
    destruct rest as [|count rest].
    { repeat split.
      + discriminate.
      + intros (m & r & E & Hne). inversion E; subst. now elim Hne.
      + intros e H. cbv in H. now inversion H. }
    destruct (calculate_valid_magic_outcome count rest) as [Hres _].
    cbv zeta in Hres. rewrite Hres.
    destruct (declared_in_range _ _ 24); repeat split; try discriminate.
    + intros (m & r & E & Hne). inversion E; subst. now elim Hne.
    + intros [H|H]; discriminate.
    + intros (m & r & E & Hne). inversion E; subst. now elim Hne.
    + intros [H|H]; discriminate.
    + intros e H. now inversion H.
  - assert (Hne : (byte.unsigned magic =? 233) = false) by now apply Z.eqb_neq.
    assert (Hc : calculate_expected_checksum (magic :: rest) =
                 ([PCalculatingBanner; PErrorBadMagic], Returned)).
    { unfold calculate_expected_checksum, index.
      change (getitem (magic :: rest) 0) with (Some magic).
      cbn [ret bind print app]. rewrite Hne. reflexivity. }
    rewrite Hc. unfold res; cbn [snd]. repeat split; try discriminate.
    + intros _. exists magic, rest. split; [reflexivity|].
      intros ->. now apply Em.
    + intros [H|H]; [discriminate|]. inversion H; subst. now elim Em.
Qed.

Lemma early_return_iff_witness :
  (exists magic rest, [Byte.x7f; Byte.x45] = magic :: rest /\ magic <> Byte.xe9) /\
  res (calculate_expected_checksum [Byte.x7f; Byte.x45]) = Returned.
Proof.
  assert (H : exists magic rest, [Byte.x7f; Byte.x45] = magic :: rest /\ magic <> Byte.xe9).
  { exists Byte.x7f, [Byte.x45]. split; [reflexivity | discriminate]. }
  split; [exact H|].
  destruct (early_return_iff [Byte.x7f; Byte.x45]) as [[_ Hr] _]. exact (Hr H).
Defined.

(** *** The search for the checksum value *)

(** What the search loop prints over the indices [[i, i + n)]. *)
Lemma search_loop_found modified c : forall n i,
  0 <= i -> i + Z.of_nat n <= len modified ->
  forall p k,
    In (PFound p k) (out (for_loop n i (search_body modified c) tt)) <->
    i <= p < i + Z.of_nat n /\ len modified - 40 <= p /\ k = len modified - p /\
    exists b, getitem modified p = Some b /\ byte.unsigned b = c.
Proof.
  induction n as [|n IH]; intros i H0 H1 p k.
  - cbn [for_loop]. unfold out, ret; cbn [fst]. split; [intros [] | lia].
  - cbn [for_loop]. unfold search_body at 1, index.
    destruct (getitem_in_range modified i) as [v Ev]; [lia|]. rewrite Ev.
    cbn [ret bind app].
    specialize (IH (i + 1) ltac:(lia) ltac:(lia) p k).
    destruct (for_loop n (i + 1) (search_body modified c) tt) as [l r] eqn:El.
    unfold out in *; cbn [fst] in *.
    assert (Hhere : forall b, getitem modified i = Some b -> b = v)
      by (intros b Hb; congruence).
    destruct (Z.eqb_spec (byte.unsigned v) c) as [Hc|Hc];
      [destruct (Z.leb_spec (len modified - 40) i) as [H40|H40]|];
      unfold print, ret; cbn [bind]; rewrite El; cbn [app fst].
    + split.
      * intros [E|Hin].
        -- inversion E; subst p k. repeat split; try lia. now exists v.
        -- apply IH in Hin. destruct Hin as (Hp & Hq & Hk & Hb). repeat split; try lia.
           exact Hb.
      * intros (Hp & Hq & Hk & Hb).
        destruct (Z.eq_dec p i) as [->|Hne]; [left; now subst k|].
        right. apply IH. repeat split; try lia. exact Hb.
    + rewrite IH. split.
      * intros (Hp & Hq & Hk & Hb). repeat split; try lia. exact Hb.
      * intros (Hp & Hq & Hk & Hb). repeat split; try lia. exact Hb.
    + rewrite IH. split.
      * intros (Hp & Hq & Hk & Hb). repeat split; try lia. exact Hb.
      * intros (Hp & Hq & Hk & (b & Eb & Hb)).
        destruct (Z.eq_dec p i) as [->|Hne].
        -- apply Hhere in Eb. subst b. contradiction.
        -- repeat split; try lia. now exists b.
Qed.

(** The calculation, when the walk completes, with the search spelled out. *)
Lemma calculate_completes_search (count : byte) (rest : bytes) lw w :
  let modified := Byte.xe9 :: count :: rest in
  walk_segments modified (byte.unsigned count) = (lw, Next w) ->
  calculate_expected_checksum modified =
    (PCalculatingBanner :: PSegmentCount (byte.unsigned count) :: lw ++
     PTotalDataBytes (total_data_bytes w) :: PExpectedChecksum (checksum w) ::
     PBlank :: PSearchingBanner (checksum w) ::
     out (for_range (len modified) (search_body modified (checksum w)) tt),
     Next tt).
Proof.
  intros modified Hw.
  destruct (search_completes modified (checksum w)) as (found & Ef & _).
  unfold calculate_expected_checksum, index. fold modified.
  change (getitem modified 0) with (Some Byte.xe9).
  change (getitem modified 1) with (Some count).
  cbn [ret bind print app negb]. change (byte.unsigned Byte.xe9 =? 233) with true.
  cbn [negb ret bind app]. rewrite Hw. cbn [bind]. rewrite Ef.
  reflexivity.
Qed.

Lemma out_pair {A} (l : list line) (r : ctl A) : out (l, r) = l.
Proof. reflexivity. Qed.

(** The "Found" lines of the calculation on any file. *)
Lemma calculate_found (modified : bytes) (p k : Z) :
  In (PFound p k) (out (calculate_expected_checksum modified)) <->
  exists c,
    reported_checksum (out (calculate_expected_checksum modified)) = Some c /\
    0 <= p < len modified /\ len modified - 40 <= p /\ k = len modified - p /\
    exists b, getitem modified p = Some b /\ byte.unsigned b = c.
Proof.
  assert (Hnone : forall l r,
            calculate_expected_checksum modified = (l, r) ->
            reported_checksum l = None -> ~ In (PFound p k) l ->
            In (PFound p k) (out (calculate_expected_checksum modified)) <->
            exists c,
              reported_checksum (out (calculate_expected_checksum modified)) = Some c /\
              0 <= p < len modified /\ len modified - 40 <= p /\ k = len modified - p /\
              exists b, getitem modified p = Some b /\ byte.unsigned b = c).
  { intros l r -> Hr Hn. unfold out; cbn [fst]. rewrite Hr. split.
    - intros H. contradiction.
    - intros (c & E & _). discriminate. }
  destruct modified as [|magic rest].
  { apply (Hnone [PCalculatingBanner] (Raised IndexError)); [reflexivity | reflexivity |].
    intros [H|[]]; discriminate. }
  destruct (Z.eq_dec (byte.unsigned magic) 233) as [Em|Em].
  2:{ assert (Hne : (byte.unsigned magic =? 233) = false) by now apply Z.eqb_neq.
      apply (Hnone [PCalculatingBanner; PErrorBadMagic] Returned); [| reflexivity |].
      - unfold calculate_expected_checksum, index.
        change (getitem (magic :: rest) 0) with (Some magic).
        cbn [ret bind print app]. rewrite Hne. reflexivity.
      - intros [H|[H|[]]]; discriminate. }
  assert (magic = Byte.xe9) by (apply byte.unsigned_inj; exact Em). subst magic.
  destruct rest as [|count rest].
  { apply (Hnone [PCalculatingBanner] (Raised IndexError)); [reflexivity | reflexivity |].
    intros [H|[]]; discriminate. }
  clear Hnone Em.
  set (modified := Byte.xe9 :: count :: rest).
  pose proof (walk_reports_no_checksum modified (Z.to_nat (byte.unsigned count)) 0
                {| offset := 24; checksum := 239; total_data_bytes := 0 |}) as Hsil.
  pose proof (walk_prints_descriptors_only modified (Z.to_nat (byte.unsigned count)) 0
                {| offset := 24; checksum := 239; total_data_bytes := 0 |}) as Honly.
  destruct (walk_segments modified (byte.unsigned count)) as [lw [w| |e]] eqn:Hw;
    unfold walk_segments, for_range in Hw; rewrite Hw in Hsil, Honly;
    unfold out in Hsil, Honly; cbn [fst] in Hsil, Honly.
  - pose proof (calculate_completes_search count rest lw w Hw) as Ec.
    cbv zeta in Ec. fold modified in Ec. rewrite Ec, !out_pair.
    cbn [reported_checksum].
    rewrite reported_checksum_app, Hsil. cbn [reported_checksum].
    pose proof (search_loop_found modified (checksum w) (length modified) 0
                  ltac:(lia) ltac:(unfold len; lia) p k) as Hs.
    unfold for_range, len at 1. rewrite Nat2Z.id.
    split.
    + intros [H|[H|H]]; try discriminate.
      apply in_app_or in H. destruct H as [H|H].
      * apply Honly in H. destruct H as (? & ? & ? & H). discriminate.
      * destruct H as [H|[H|[H|[H|H]]]]; try discriminate.
        apply Hs in H. exists (checksum w). split; [reflexivity|].
        destruct H as (Hp & Hq & Hk & Hb). unfold len in *.
        repeat split; try lia. exact Hb.
    + intros (c & Erc & Hp & Hq & Hk & Hb). inversion Erc; subst c.
      right. right. apply in_or_app. right. do 4 right.
      apply Hs. unfold len in *. repeat split; try lia. exact Hb.
  - exfalso.
    pose proof (walk_outcome modified (Z.to_nat (byte.unsigned count)) 0
                  {| offset := 24; checksum := 239; total_data_bytes := 0 |}
                  ltac:(cbn [offset]; lia)) as Ho.
    cbn [offset] in Ho.
    destruct (declared_in_range modified _ 24);
      [destruct Ho as (? & ? & Ho) | destruct Ho as (? & Ho)];
      rewrite Hw in Ho; discriminate.
  - pose proof (calculate_raises count rest lw e Hw) as Ec.
    fold modified in Ec. rewrite Ec.
    unfold out; cbn [fst reported_checksum]. rewrite Hsil. split.
    + intros [H|[H|H]]; try discriminate.
      apply Honly in H. destruct H as (? & ? & ? & H). discriminate.
    + intros (c & E & _). discriminate.
Qed.

(** X10. The "Found at position" lines, on any file: position [p] with
    distance [k] from the end is printed exactly when a checksum [c] was
    reported, [p] is an index of the file among its last 40, [k] is
    [len(modified) - p], and the byte at [p] equals [c]. In particular
    nothing is found when the calculation returned early or raised. *)
Theorem found_lines_characterised (modified : bytes) (p k : Z) :
  In (PFound p k) (out (calculate_expected_checksum modified)) <->
  exists c,
    reported_checksum (out (calculate_expected_checksum modified)) = Some c /\
    0 <= p < len modified /\ len modified - 40 <= p /\ k = len modified - p /\
    exists b, getitem modified p = Some b /\ byte.unsigned b = c.
Proof. exact (calculate_found modified p k). Qed.

Lemma found_lines_characterised_witness :
  (exists c,
     reported_checksum (out (calculate_expected_checksum scenario_A)) = Some c /\
     0 <= 34 < len scenario_A /\ len scenario_A - 40 <= 34 /\ 33 = len scenario_A - 34 /\
     exists b, getitem scenario_A 34 = Some b /\ byte.unsigned b = c) /\
  In (PFound 34 33) (out (calculate_expected_checksum scenario_A)).
Proof.
  assert (H : exists c,
     reported_checksum (out (calculate_expected_checksum scenario_A)) = Some c /\
     0 <= 34 < len scenario_A /\ len scenario_A - 40 <= 34 /\ 33 = len scenario_A - 34 /\
     exists b, getitem scenario_A 34 = Some b /\ byte.unsigned b = c).
  { exists 0xEC. split; [reflexivity|]. split; [split; vm_compute; congruence|].
    split; [vm_compute; congruence|]. split; [reflexivity|].
    exists Byte.xec. split; reflexivity. }
  split; [exact H|].
  destruct (found_lines_characterised scenario_A 34 33) as [_ Hr]. exact (Hr H).
Defined.

(** X11. On a well-formed image the search reports the byte 33 from the
    end (the checksum slot in front of the 32-byte trailer) exactly when
    that byte equals the checksum computed from the segments: a consistent
    image is recognised, a stale checksum byte is not. *)
Theorem consistent_slot_is_found
    (opaque ext : bytes) (segs : list Segment) (pad : bytes) (slot : byte) (trailer : bytes) :
  length opaque = 6%nat -> length ext = 16%nat ->
  (length segs < 256)%nat -> Forall segment_ok segs ->
  length trailer = 32%nat ->
  let img := image opaque ext segs (pad ++ slot :: trailer) in
  In (PFound (len img - 33) 33) (out (calculate_expected_checksum img)) <->
  byte.unsigned slot = compute_checksum segs.
Proof.
  intros Ho He Hlt Hok Ht img.
  set (body := header (Z.of_nat (length segs)) opaque ext ++ encode_segments segs ++ pad).
  assert (Himg : img = body ++ slot :: trailer).
  { unfold img, image, body. now rewrite <- !app_assoc. }
  assert (Hlen : len img = len body + 33).
  { assert (len trailer = 32) by (unfold len; lia).
    rewrite Himg, len_app, len_cons. lia. }
  pose proof (len_nonneg body) as Hb0.
  assert (Hget : getitem img (len img - 33) = Some slot).
  { replace (len img - 33) with (len body) by lia. rewrite Himg. apply getitem_app_mid. }
  pose proof (reported_checksum_image opaque ext segs (pad ++ slot :: trailer) Ho He Hlt Hok)
    as Hrep.
  fold img in Hrep.
  rewrite (calculate_found img (len img - 33) 33). rewrite Hrep, Hget. split.
  - intros (c & Ec & _ & _ & _ & b & Eb & Hb). congruence.
  - intros Hs. exists (compute_checksum segs). split; [reflexivity|].
    repeat split; try lia. exists slot. now split.
Qed.

Lemma consistent_slot_is_found_witness :
  byte.unsigned Byte.xec = compute_checksum [segment_A] /\
  In (PFound (len scenario_A - 33) 33) (out (calculate_expected_checksum scenario_A)).
Proof.
  assert (H : byte.unsigned Byte.xec = compute_checksum [segment_A]) by reflexivity.
  split; [exact H|].
  destruct (consistent_slot_is_found (repeat Byte.x00 6) (repeat Byte.x00 16) [segment_A]
              [] Byte.xec scenario_A_trailer) as [_ Hr];
    [reflexivity | reflexivity | cbn; lia | repeat constructor; cbn; lia | reflexivity |].
  exact (Hr H).
Defined.

(** *** Sensitivity of the checksum *)

(** One byte in the middle of the folded data can be pulled out of the fold. *)
Lemma xor_fold_middle c (front : bytes) (b : byte) (back : bytes) :
  xor_fold c (front ++ b :: back) = Z.lxor (byte.unsigned b) (xor_fold c (front ++ back)).
Proof.
  rewrite !xor_fold_app. cbn [xor_fold fold_left].
  fold (xor_fold (Z.lxor (xor_fold c front) (byte.unsigned b)) back).
  fold (xor_fold (xor_fold c front) back).
  rewrite (xor_fold_seed (Z.lxor _ _)), (xor_fold_seed (xor_fold c front) back).
  rewrite (Z.lxor_comm (xor_fold c front) (byte.unsigned b)).
  now rewrite Z.lxor_assoc.
Qed.

(** X12. Replacing one data byte [b] of one segment of a well-formed image
    by [b'] changes the checksum the script reports by exactly
    [b XOR b']: the new checksum is the old one XOR [b] XOR [b'], so it
    differs from the old one exactly when the byte differs. *)
Theorem data_byte_change_flips_checksum
    (opaque ext : bytes) (before after : list Segment) (address : Z)
    (front back : bytes) (b b' : byte) (rest rest' : bytes) :
  let old := before ++ {| load_address := address; data := front ++ b :: back |} :: after in
  let new := before ++ {| load_address := address; data := front ++ b' :: back |} :: after in
  length opaque = 6%nat -> length ext = 16%nat ->
  (length old < 256)%nat -> Forall segment_ok old ->
  exists c,
    reported_checksum (out (calculate_expected_checksum (image opaque ext old rest))) =
      Some c /\
    reported_checksum (out (calculate_expected_checksum (image opaque ext new rest'))) =
      Some (Z.lxor (Z.lxor c (byte.unsigned b)) (byte.unsigned b')) /\
    (Z.lxor (Z.lxor c (byte.unsigned b)) (byte.unsigned b') = c <-> b' = b).
Proof.
  intros old new Ho He Hlt Hok.
  assert (Hlt' : (length new < 256)%nat).
  { unfold new, old in *. rewrite length_app in *. cbn [length] in *. lia. }
  assert (Hok' : Forall segment_ok new).
  { unfold new, old in *. apply Forall_app in Hok. destruct Hok as [Hb Hsa].
    inversion Hsa as [|? ? Hs Ha]; subst.
    apply Forall_app. split; [exact Hb|]. constructor; [|exact Ha].
    unfold segment_ok, data_length, len in *. cbn [load_address data] in *.
    rewrite length_app in *. cbn [length] in *. exact Hs. }
  set (F := xor_fold 239
              ((concat (map data before) ++ front) ++ back ++ concat (map data after))).
  assert (Hsum : forall x,
            compute_checksum
              (before ++ {| load_address := address; data := front ++ x :: back |} :: after) =
            Z.lxor (byte.unsigned x) F).
  { intros x. unfold compute_checksum.
    change (fold_left _ ?l 239) with (fold_segments 239 l).
    rewrite fold_segments_concat, map_app, concat_app. cbn [map concat data].
    rewrite <- !app_assoc. cbn [app].
    rewrite (app_assoc (concat (map data before)) front).
    rewrite xor_fold_middle. unfold F. now rewrite <- !app_assoc. }
  exists (Z.lxor (byte.unsigned b) F).
  assert (Hflip : Z.lxor (Z.lxor (Z.lxor (byte.unsigned b) F) (byte.unsigned b))
                    (byte.unsigned b') = Z.lxor (byte.unsigned b') F).
  { assert (Hb : Z.lxor (Z.lxor (byte.unsigned b) F) (byte.unsigned b) = F).
    { rewrite (Z.lxor_comm (Z.lxor (byte.unsigned b) F)), <- Z.lxor_assoc.
      now rewrite Z.lxor_nilpotent, Z.lxor_0_l. }
    rewrite Hb. apply Z.lxor_comm. }
  split; [|split].
  - rewrite (reported_checksum_image opaque ext old rest Ho He Hlt Hok).
    unfold old. now rewrite Hsum.
  - rewrite (reported_checksum_image opaque ext new rest' Ho He Hlt' Hok').
    unfold new. now rewrite Hsum, Hflip.
  - rewrite Hflip. split.
    + intros E. apply byte.unsigned_inj.
      apply (f_equal (fun z => Z.lxor z F)) in E.
      now rewrite !Z.lxor_assoc, Z.lxor_nilpotent, !Z.lxor_0_r in E.
    + now intros ->.
Qed.

Lemma data_byte_change_flips_checksum_witness :
  (length ([] ++ {| load_address := 0; data := [Byte.x01] ++ Byte.x02 :: [] |} :: []) < 256)%nat /\
  reported_checksum
    (out (calculate_expected_checksum
            (image (repeat Byte.x00 6) (repeat Byte.x00 16)
               ([] ++ {| load_address := 0; data := [Byte.x01] ++ Byte.x00 :: [] |} :: [])
               []))) =
  Some 0xEE.
Proof.
  assert (H : (length ([] ++ {| load_address := 0;
                                data := [Byte.x01] ++ Byte.x02 :: [] |} :: []) < 256)%nat)
    by (cbn; lia).
  split; [exact H|].
  destruct (data_byte_change_flips_checksum (repeat Byte.x00 6) (repeat Byte.x00 16)
              [] [] 0 [Byte.x01] [] Byte.x02 Byte.x00 [] [])
    as (c & E1 & E2 & _);
    [reflexivity | reflexivity | exact H | repeat constructor; cbn; lia |].
  vm_compute in E1. inversion E1; subst c. exact E2.
Defined.

(** *** The script as a whole *)

(** X13. The whole script runs to completion exactly when the position
    report does (the original has at least 33 bytes, the modified file
    reaches the original's checksum position and has at least 17 bytes)
    and the calculation on the modified file does. When the report
    completes, the log is the report followed by the calculation; when it
    does not, the log is the report alone and no checksum is reported. *)
Theorem script_completes_iff (original modified : bytes) :
  (res (reconstruct_firmware original modified) = Next tt <->
   (33 <= len original /\ len original - 33 < len modified /\ 17 <= len modified) /\
   res (calculate_expected_checksum modified) = Next tt) /\
  (res (report_positions original modified) = Next tt ->
   out (reconstruct_firmware original modified) =
     out (report_positions original modified) ++ out (calculate_expected_checksum modified)) /\
  (res (report_positions original modified) <> Next tt ->
   reconstruct_firmware original modified = report_positions original modified /\
   reported_checksum (out (reconstruct_firmware original modified)) = None).
Proof.
  destruct (report_positions_outcome original modified) as [Hiff Hnr].
  pose proof (report_positions_log original modified) as Hlog.
  unfold reconstruct_firmware.
  destruct (report_positions original modified) as [lp [[]| |e]];
    unfold res, out in *; cbn [fst snd bind] in *.
  - destruct (calculate_expected_checksum modified) as [lc rc]. cbn [fst snd].
    split; [|split].
    + split.
      * intros ->. split; [now apply Hiff | reflexivity].
      * now intros [_ ->].
    + reflexivity.
    + intros H. now elim H.
  - now elim Hnr.
  - split; [|split].
    + split; [discriminate|]. intros [Hc _]. apply Hiff in Hc. discriminate.
    + discriminate.
    + intros _. split; [reflexivity|]. now apply reported_checksum_position.
Qed.

Lemma script_completes_iff_witness :
  ((33 <= len scenario_A /\ len scenario_A - 33 < len scenario_A /\ 17 <= len scenario_A) /\
   res (calculate_expected_checksum scenario_A) = Next tt) /\
  res (reconstruct_firmware scenario_A scenario_A) = Next tt.
Proof.
  assert (H : (33 <= len scenario_A /\ len scenario_A - 33 < len scenario_A /\
               17 <= len scenario_A) /\
              res (calculate_expected_checksum scenario_A) = Next tt).
  { split; [repeat split; vm_compute; congruence | reflexivity]. }
  split; [exact H|].
  destruct (script_completes_iff scenario_A scenario_A) as [[_ Hr] _]. exact (Hr H).
Defined.

(** X14. Round trip through the record format: on a well-formed image the
    descriptors the script prints are exactly the load addresses and data
    lengths that were encoded, in order; the total it prints is the sum of
    the data lengths; and the walk stops where the bytes after the last
    record begin. *)
Theorem image_descriptors_round_trip
    (opaque ext : bytes) (segs : list Segment) (rest : bytes) :
  length opaque = 6%nat -> length ext = 16%nat ->
  (length segs < 256)%nat -> Forall segment_ok segs ->
  let img := image opaque ext segs rest in
  descriptors (out (calculate_expected_checksum img)) =
    map (fun s => (load_address s, data_length s)) segs /\
  In (PTotalDataBytes (payload_size segs)) (out (calculate_expected_checksum img)) /\
  exists log w,
    walk_segments img (Z.of_nat (length segs)) = (log, Next w) /\
    offset w = len img - len rest /\
    skipn (Z.to_nat (offset w)) img = rest.
Proof.
  intros Ho He Hlt Hok img.
  destruct (calculate_image opaque ext segs rest Ho He Hlt Hok) as (found & Ff & Ec).
  fold img in Ec. rewrite Ec, !out_pair. split; [|split].
  - cbn [descriptors]. rewrite descriptors_app, descriptors_segment_lines.
    cbn [descriptors]. now rewrite (descriptors_found _ Ff), app_nil_r.
  - right. right. apply in_or_app. right. now left.
  - pose proof (walk_image opaque ext segs rest Ho He Hok) as Hw. fold img in Hw.
    eexists _, _. split; [exact Hw|]. cbn [offset].
    set (lead := header (Z.of_nat (length segs)) opaque ext ++ encode_segments segs).
    assert (Hlead : len lead = 24 + records_size segs).
    { unfold lead. now rewrite len_app, (len_header _ _ _ Ho He), len_encode_segments. }
    assert (Himg : img = lead ++ rest).
    { unfold img, image, lead. now rewrite <- app_assoc. }
    rewrite <- Hlead. split.
    + rewrite Himg, len_app. lia.
    + rewrite Himg. apply skipn_len_app.
Qed.

Lemma image_descriptors_round_trip_witness :
  (length [segment_A; segment_B] < 256)%nat /\
  descriptors
    (out (calculate_expected_checksum
            (image (repeat Byte.x00 6) (repeat Byte.x00 16) [segment_A; segment_B] []))) =
  [(0, 2); (0x40080000, 1)].
Proof.
  assert (H : (length [segment_A; segment_B] < 256)%nat) by (cbn; lia).
  split; [exact H|].
  destruct (image_descriptors_round_trip (repeat Byte.x00 6) (repeat Byte.x00 16)
              [segment_A; segment_B] []) as (E & _);
    [reflexivity | reflexivity | exact H | repeat constructor; cbn; lia |].
  exact E.
Defined.

(** X15. Only the data bytes reach the checksum: two well-formed images
    whose segments carry the same data, whatever their load addresses,
    opaque header bytes and the bytes after the last record, get the same
    reported checksum. *)
Theorem checksum_ignores_headers
    (opaque ext opaque' ext' rest rest' : bytes) (segs segs' : list Segment) :
  length opaque = 6%nat -> length ext = 16%nat ->
  length opaque' = 6%nat -> length ext' = 16%nat ->
  (length segs < 256)%nat -> Forall segment_ok segs -> Forall segment_ok segs' ->
  map data segs = map data segs' ->
  reported_checksum (out (calculate_expected_checksum (image opaque ext segs rest))) =
  reported_checksum (out (calculate_expected_checksum (image opaque' ext' segs' rest'))) /\
  reported_checksum (out (calculate_expected_checksum (image opaque ext segs rest))) =
    Some (xor_fold 0xEF (concat (map data segs))).
Proof.
  intros Ho He Ho' He' Hlt Hok Hok' Hd.
  assert (Hlt' : (length segs' < 256)%nat).
  { rewrite <- (length_map data segs'), <- Hd, length_map. exact Hlt. }
  rewrite (reported_checksum_image opaque ext segs rest Ho He Hlt Hok).
  rewrite (reported_checksum_image opaque' ext' segs' rest' Ho' He' Hlt' Hok').
  unfold compute_checksum.
  change (fold_left _ segs 239) with (fold_segments 239 segs).
  change (fold_left _ segs' 239) with (fold_segments 239 segs').
  rewrite !fold_segments_concat, Hd. split; reflexivity.
Qed.

Lemma checksum_ignores_headers_witness :
  map data [segment_B] = map data [ {| load_address := 0x3FFB0000; data := [Byte.xff] |} ] /\
  reported_checksum
    (out (calculate_expected_checksum
            (image (repeat Byte.x00 6) (repeat Byte.x00 16) [segment_B] []))) =
  reported_checksum
    (out (calculate_expected_checksum
            (image (repeat Byte.x11 6) (repeat Byte.x22 16)
               [ {| load_address := 0x3FFB0000; data := [Byte.xff] |} ] [Byte.x33]))).
Proof.
  assert (H : map data [segment_B] =
              map data [ {| load_address := 0x3FFB0000; data := [Byte.xff] |} ])
    by reflexivity.
  split; [exact H|].
  destruct (checksum_ignores_headers (repeat Byte.x00 6) (repeat Byte.x00 16)
              (repeat Byte.x11 6) (repeat Byte.x22 16) [] [Byte.x33] [segment_B]
              [ {| load_address := 0x3FFB0000; data := [Byte.xff] |} ]) as [E _];
    [reflexivity | reflexivity | reflexivity | reflexivity | cbn; lia
    | repeat constructor; cbn; lia | repeat constructor; cbn; lia | exact H |].
  exact E.
Defined.

(** ** Truncated images *)







Section CutImage.

Variables (opaque ext : bytes) (before : list Segment) (s : Segment)
          (after : list Segment) (rest : bytes) (p : Z).
Hypothesis Ho : length opaque = 6%nat.
Hypothesis He : length ext = 16%nat.
Hypothesis Hlt : (length (before ++ s :: after) < 256)%nat.
Hypothesis Hok : Forall segment_ok (before ++ s :: after).
Hypothesis Hin : 24 + records_size before <= p < 24 + records_size before + 8 + data_length s.








End CutImage.

Section CutAnywhere.

Variables (opaque ext : bytes) (segs : list Segment) (rest : bytes) (p : Z).
Hypothesis Ho : length opaque = 6%nat.
Hypothesis He : length ext = 16%nat.
Hypothesis Hlt : (length segs < 256)%nat.
Hypothesis Hok : Forall segment_ok segs.





End CutAnywhere.


